(** * PWM output driver (src/main/drivers/pwm_output_hal.c)

    A shallow embedding of the output-port allocation and pulse-dispatch
    code of the driver, and the properties of its write, shutdown, oneshot
    and configuration paths.

    Conventions of the embedding:
    - the file-scope variables of the driver ([pwmOutputPorts], [motors],
      [servos], [allocatedOutputPortCount], [pwmMotorsEnabled]) are the
      fields of one [state] record, threaded through a state-and-fault
      monad [M];
    - a pointer into [pwmOutputPorts] is the index of the slot, a null
      pointer is [None]; dereferencing a null pointer, or a pointer or an
      array index outside its array, is undefined in C and is the outcome
      [Fault] here;
    - the timers are hardware: a compare register is named by its timer and
      its channel register, the register file [ccr_regs] holds the last value
      stored through a port's [ccr] handle, and every call into the timer and
      GPIO layers, and every such store, is appended to [hw_log] in program
      order (the timer layer is a recorder of what it is asked);
    - [uint8_t] indices and counts are [nat], [uint16_t] and [int] values
      are [Z] with the conversions written out ([int] is 32 bits wide on
      the STM32 targets of this driver). *)

From stdpp Require Import base decidable option list numbers countable gmap.
From Stdlib Require Import ZArith Lia.

Local Open Scope Z_scope.

(** ** Hardware names *)

(** A timer peripheral ([TIM_TypeDef *], never null in a hardware table). *)
Definition timer := nat.

(** A resolved [TIM_HandleTypeDef *]. *)
Definition tim_handle := nat.

(** The HAL's channel selector of a timer ([TIM_CHANNEL_x]); the selector
    [TIM_CHANNEL_ALL] stands for every value the [switch] of [pwmOutConfig]
    has no case for. *)
Inductive tim_channel :=
  | TIM_CHANNEL_1 | TIM_CHANNEL_2 | TIM_CHANNEL_3 | TIM_CHANNEL_4
  | TIM_CHANNEL_ALL.

(** The four capture/compare registers of a timer. *)
Inductive ccr_id := CCR1 | CCR2 | CCR3 | CCR4.

#[global] Instance tim_channel_eq_dec : EqDecision tim_channel.
Proof. solve_decision. Defined.

#[global] Instance ccr_id_eq_dec : EqDecision ccr_id.
Proof. solve_decision. Defined.

Definition ccr_id_to_nat (c : ccr_id) : nat :=
  match c with CCR1 => 0 | CCR2 => 1 | CCR3 => 2 | CCR4 => 3 end%nat.

Definition ccr_id_of_nat (n : nat) : option ccr_id :=
  match n with
  | 0 => Some CCR1 | 1 => Some CCR2 | 2 => Some CCR3 | 3 => Some CCR4
  | _ => None
  end%nat.

#[global] Program Instance ccr_id_countable : Countable ccr_id :=
  inj_countable ccr_id_to_nat ccr_id_of_nat _.
Next Obligation. by intros []. Qed.

(** [&tim->CCRn]: the address of one compare register. *)
Definition ccr_ref : Type := timer * ccr_id.

(** [timerHardware_t], the descriptor of one timer channel and its pin. *)
Record timerHardware_t := {
  hw_tim : timer;
  hw_channel : tim_channel;
  hw_outputEnable : bool;
  hw_gpio : Z;
  hw_pin : Z;
  hw_alternateFunction : Z;
  hw_gpioInputMode : Z;
}.

(** The calls the driver makes into the timer and GPIO layers, and its
    stores through a compare-register handle, in program order. *)
Inductive hw_call :=
  | Call_configTimeBase (tim : timer) (period mhz : Z)
  | Call_HAL_GPIO_Init (gpio pin alternate mode : Z)
  | Call_HAL_TIM_PWM_ConfigChannel (h : tim_handle) (pulse : Z) (ch : tim_channel)
  | Call_HAL_TIM_PWM_Start (h : tim_handle) (ch : tim_channel)
  | Call_HAL_TIM_PWM_Stop (h : tim_handle) (ch : tim_channel)
  | Call_HAL_TIM_Base_Start (h : tim_handle)
  | Call_timerForceOverflow (tim : option timer)
  | Store_ccr (r : ccr_ref) (v : Z).

#[global] Instance hw_call_eq_dec : EqDecision hw_call.
Proof. solve_decision. Defined.

(** ** Build constants

    The headers that fix these are not part of the driver file; the driver
    is verified for every choice of them. *)
Class Platform := {
  MAX_MOTORS : nat;
  MAX_SERVOS : nat;
  (** length of [motors] *)
  MAX_PWM_MOTORS : nat;
  (** length of [servos] *)
  MAX_PWM_SERVOS : nat;
  PWM_BRUSHED_TIMER_MHZ : Z;
  PWM_TIMER_MHZ : Z;
  ONESHOT125_TIMER_MHZ : Z;
  (** width in bits of [timCCR_t] *)
  ccr_bits : Z;
  (** [timerFindTimerHandle]: [None] is the null handle *)
  timerFindTimerHandle : timer → option tim_handle;
}.

(** ** Machine integers *)

Definition to_uint8 (z : Z) : Z := z mod 2 ^ 8.
Definition to_uint16 (z : Z) : Z := z mod 2 ^ 16.
Definition to_uint32 (z : Z) : Z := z mod 2 ^ 32.

(** A value brought back into the range of [int], two's complement: signed
    overflow, which C leaves undefined, wraps as the target's arithmetic
    does. *)
Definition to_int (z : Z) : Z := (z + 2 ^ 31) mod 2 ^ 32 - 2 ^ 31.

Definition int_sub (a b : Z) : Z := to_int (a - b).
Definition int_mul (a b : Z) : Z := to_int (a * b).
(** [/] of C on [int]: the quotient is truncated toward zero. *)
Definition int_div (a b : Z) : Z := to_int (a ÷ b).

(** ** Driver state *)

(** [pwmWriteFuncPtr]: the two functions a port's [pwmWritePtr] can hold. *)
Inductive pwmWriteFuncPtr := Ptr_pwmWriteBrushed | Ptr_pwmWriteStandard.

#[global] Instance pwmWriteFuncPtr_eq_dec : EqDecision pwmWriteFuncPtr.
Proof. solve_decision. Defined.

(** [pwmOutputPort_t] *)
Record pwmOutputPort_t := {
  ccr : option ccr_ref;
  tim : option timer;
  period : Z;
  pwmWritePtr : option pwmWriteFuncPtr;
}.

(** A zero-initialised port, as the static array holds before configuration. *)
Definition port_zero : pwmOutputPort_t :=
  {| ccr := None; tim := None; period := 0; pwmWritePtr := None |}.

Definition set_ccr (r : option ccr_ref) (p : pwmOutputPort_t) :=
  {| ccr := r; tim := tim p; period := period p; pwmWritePtr := pwmWritePtr p |}.
Definition set_tim (t : option timer) (p : pwmOutputPort_t) :=
  {| ccr := ccr p; tim := t; period := period p; pwmWritePtr := pwmWritePtr p |}.
Definition set_period (n : Z) (p : pwmOutputPort_t) :=
  {| ccr := ccr p; tim := tim p; period := n; pwmWritePtr := pwmWritePtr p |}.
Definition set_pwmWritePtr (f : option pwmWriteFuncPtr) (p : pwmOutputPort_t) :=
  {| ccr := ccr p; tim := tim p; period := period p; pwmWritePtr := f |}.

(** A [pwmOutputPort_t *]: [None] is null, [Some k] is [&pwmOutputPorts[k]]. *)
Abbreviation port_ptr := (option nat).

Record state := {
  pwmOutputPorts : list pwmOutputPort_t;
  motors : list port_ptr;
  servos : list port_ptr;
  allocatedOutputPortCount : nat;
  pwmMotorsEnabled : bool;
  ccr_regs : gmap ccr_ref Z;
  hw_log : list hw_call;
}.

Definition with_ports (v : list pwmOutputPort_t) (s : state) : state :=
  {| pwmOutputPorts := v; motors := motors s; servos := servos s;
     allocatedOutputPortCount := allocatedOutputPortCount s;
     pwmMotorsEnabled := pwmMotorsEnabled s;
     ccr_regs := ccr_regs s; hw_log := hw_log s |}.
Definition with_motors (v : list port_ptr) (s : state) : state :=
  {| pwmOutputPorts := pwmOutputPorts s; motors := v; servos := servos s;
     allocatedOutputPortCount := allocatedOutputPortCount s;
     pwmMotorsEnabled := pwmMotorsEnabled s;
     ccr_regs := ccr_regs s; hw_log := hw_log s |}.
Definition with_servos (v : list port_ptr) (s : state) : state :=
  {| pwmOutputPorts := pwmOutputPorts s; motors := motors s; servos := v;
     allocatedOutputPortCount := allocatedOutputPortCount s;
     pwmMotorsEnabled := pwmMotorsEnabled s;
     ccr_regs := ccr_regs s; hw_log := hw_log s |}.
Definition with_count (v : nat) (s : state) : state :=
  {| pwmOutputPorts := pwmOutputPorts s; motors := motors s; servos := servos s;
     allocatedOutputPortCount := v;
     pwmMotorsEnabled := pwmMotorsEnabled s;
     ccr_regs := ccr_regs s; hw_log := hw_log s |}.
Definition with_enabled (v : bool) (s : state) : state :=
  {| pwmOutputPorts := pwmOutputPorts s; motors := motors s; servos := servos s;
     allocatedOutputPortCount := allocatedOutputPortCount s;
     pwmMotorsEnabled := v;
     ccr_regs := ccr_regs s; hw_log := hw_log s |}.
Definition with_regs (v : gmap ccr_ref Z) (s : state) : state :=
  {| pwmOutputPorts := pwmOutputPorts s; motors := motors s; servos := servos s;
     allocatedOutputPortCount := allocatedOutputPortCount s;
     pwmMotorsEnabled := pwmMotorsEnabled s;
     ccr_regs := v; hw_log := hw_log s |}.
Definition with_log (v : list hw_call) (s : state) : state :=
  {| pwmOutputPorts := pwmOutputPorts s; motors := motors s; servos := servos s;
     allocatedOutputPortCount := allocatedOutputPortCount s;
     pwmMotorsEnabled := pwmMotorsEnabled s;
     ccr_regs := ccr_regs s; hw_log := v |}.

(** ** The state-and-fault monad *)

Inductive outcome (A : Type) :=
  | Done (a : A) (s : state)
  | Fault.
Arguments Done {A} a s.
Arguments Fault {A}.

Definition M (A : Type) : Type := state → outcome A.

Definition ret {A} (a : A) : M A := λ s, Done a s.
Definition bind {A B} (m : M A) (k : A → M B) : M B :=
  λ s, match m s with Done a s' => k a s' | Fault => Fault end.
Definition fault {A} : M A := λ _, Fault.
Definition gets {A} (f : state → A) : M A := λ s, Done (f s) s.
Definition modify (f : state → state) : M unit := λ s, Done tt (f s).

#[global] Instance M_ret : MRet M := @ret.
#[global] Instance M_bind : MBind M := λ A B k m, bind m k.

(** The state an outcome ends in, [d] for a fault. *)
Definition final_state {A} (d : state) (o : outcome A) : state :=
  match o with Done _ s => s | Fault => d end.

(** A [for (index = first; ...; index++)] loop that runs [iterations] times
    and carries the locals of the enclosing function in [acc]. *)
Fixpoint for_index {A} (first iterations : nat)
    (body : nat → A → M A) (acc : A) : M A :=
  match iterations with
  | O => ret acc
  | S n => acc' ← body first acc; for_index (S first) n body acc'
  end.

(** ** The driver *)

Section Driver.
Context `{Platform}.

(** [MAX_PWM_OUTPUT_PORTS], the larger of [MAX_MOTORS] and [MAX_SERVOS]. *)
Definition MAX_PWM_OUTPUT_PORTS : nat :=
  if decide (MAX_SERVOS < MAX_MOTORS)%nat then MAX_MOTORS else MAX_SERVOS.

(** The statics as the C start-up code leaves them. *)
Definition pwm_init : state :=
  {| pwmOutputPorts := replicate MAX_PWM_OUTPUT_PORTS port_zero;
     motors := replicate MAX_PWM_MOTORS None;
     servos := replicate MAX_PWM_SERVOS None;
     allocatedOutputPortCount := 0;
     pwmMotorsEnabled := true;
     ccr_regs := ∅;
     hw_log := [] |}.

(** Conversion to [timCCR_t] on a store to a compare register. *)
Definition to_timCCR (z : Z) : Z := z mod 2 ^ ccr_bits.

(** *** Memory accesses *)

(** [motors[index]] read. *)
Definition load_motor (index : nat) : M port_ptr :=
  λ s, match motors s !! index with Some p => Done p s | None => Fault end.

(** [motors[index] = p] *)
Definition store_motor (index : nat) (p : port_ptr) : M unit :=
  λ s, if decide (index < length (motors s))%nat
       then Done tt (with_motors (<[index := p]> (motors s)) s)
       else Fault.

(** [servos[index]] read. *)
Definition load_servo (index : nat) : M port_ptr :=
  λ s, match servos s !! index with Some p => Done p s | None => Fault end.

(** [servos[index] = p] *)
Definition store_servo (index : nat) (p : port_ptr) : M unit :=
  λ s, if decide (index < length (servos s))%nat
       then Done tt (with_servos (<[index := p]> (servos s)) s)
       else Fault.

(** [*p] read. *)
Definition load_port (p : port_ptr) : M pwmOutputPort_t :=
  λ s, match p with
       | None => Fault
       | Some k =>
           match pwmOutputPorts s !! k with
           | Some port => Done port s
           | None => Fault
           end
       end.

(** A store to one field of [*p]. *)
Definition update_port (p : port_ptr) (f : pwmOutputPort_t → pwmOutputPort_t)
    : M unit :=
  λ s, match p with
       | None => Fault
       | Some k =>
           match pwmOutputPorts s !! k with
           | Some port =>
               Done tt (with_ports (<[k := f port]> (pwmOutputPorts s)) s)
           | None => Fault
           end
       end.

(** [*c = v] on a compare-register handle. *)
Definition store_ccr (c : option ccr_ref) (v : Z) : M unit :=
  λ s, match c with
       | None => Fault
       | Some r =>
           Done tt (with_log (hw_log s ++ [Store_ccr r (to_timCCR v)])
                      (with_regs (<[r := to_timCCR v]> (ccr_regs s)) s))
       end.

(** A call into the timer or GPIO layer. *)
Definition hal (e : hw_call) : M unit :=
  modify (λ s, with_log (hw_log s ++ [e]) s).

(** [*motors[index]] read. *)
Definition motor_deref (index : nat) : M pwmOutputPort_t :=
  m ← load_motor index; load_port m.

(** *** Configuration *)

Definition pwmOCConfig (tim : timer) (channel : tim_channel) (value : Z)
    : M unit :=
  match timerFindTimerHandle tim with
  | None => mret tt
  | Some Handle => hal (Call_HAL_TIM_PWM_ConfigChannel Handle value channel)
  end.

Definition pwmGPIOConfig (timerHardwar : timerHardware_t) : M unit :=
  hal (Call_HAL_GPIO_Init (hw_gpio timerHardwar) (hw_pin timerHardwar)
         (hw_alternateFunction timerHardwar) (hw_gpioInputMode timerHardwar)).

Definition pwmOutConfig (timerHardware : timerHardware_t)
    (mhz period value : Z) : M port_ptr :=
  k ← gets allocatedOutputPortCount;
  modify (with_count ((k + 1) mod 256)%nat);;
  let p : port_ptr := Some k in
  match timerFindTimerHandle (hw_tim timerHardware) with
  | None => mret p
  | Some Handle =>
      hal (Call_configTimeBase (hw_tim timerHardware) period mhz);;
      pwmGPIOConfig timerHardware;;
      pwmOCConfig (hw_tim timerHardware) (hw_channel timerHardware) value;;
      (if hw_outputEnable timerHardware
       then hal (Call_HAL_TIM_PWM_Start Handle (hw_channel timerHardware))
       else hal (Call_HAL_TIM_PWM_Stop Handle (hw_channel timerHardware)));;
      hal (Call_HAL_TIM_Base_Start Handle);;
      match hw_channel timerHardware with
      | TIM_CHANNEL_1 => update_port p (set_ccr (Some (hw_tim timerHardware, CCR1)))
      | TIM_CHANNEL_2 => update_port p (set_ccr (Some (hw_tim timerHardware, CCR2)))
      | TIM_CHANNEL_3 => update_port p (set_ccr (Some (hw_tim timerHardware, CCR3)))
      | TIM_CHANNEL_4 => update_port p (set_ccr (Some (hw_tim timerHardware, CCR4)))
      | TIM_CHANNEL_ALL => mret tt
      end;;
      update_port p (set_period period);;
      update_port p (set_tim (Some (hw_tim timerHardware)));;
      mret p
  end.

(** *** Writes *)

Definition pwmWriteBrushed (index : nat) (value : Z) : M unit :=
  port ← motor_deref index;
  store_ccr (ccr port)
    (int_div (int_mul (int_sub value 1000) (period port)) 1000).

Definition pwmWriteStandard (index : nat) (value : Z) : M unit :=
  port ← motor_deref index;
  store_ccr (ccr port) value.

(** A call through a [pwmWriteFuncPtr]; a null pointer cannot be called. *)
Definition call_pwmWritePtr (f : option pwmWriteFuncPtr)
    (index : nat) (value : Z) : M unit :=
  match f with
  | Some Ptr_pwmWriteBrushed => pwmWriteBrushed index value
  | Some Ptr_pwmWriteStandard => pwmWriteStandard index value
  | None => fault
  end.

Definition pwmWriteMotor (index : nat) (value : Z) : M unit :=
  m ← load_motor index;
  enabled ← gets pwmMotorsEnabled;
  if bool_decide (m ≠ None) && bool_decide (index < MAX_MOTORS)%nat && enabled
  then port ← motor_deref index;
       call_pwmWritePtr (pwmWritePtr port) index value
  else mret tt.

Definition pwmShutdownPulsesForAllMotors (motorCount : nat) : M unit :=
  for_index 0 motorCount
    (λ index _, port ← motor_deref index; store_ccr (ccr port) 0) tt.

Definition pwmDisableMotors : M unit := modify (with_enabled false).

Definition pwmEnableMotors : M unit := modify (with_enabled true).

Definition pwmCompleteOneshotMotorUpdate (motorCount : nat) : M unit :=
  for_index 0 motorCount
    (λ index lastTimerPtr,
       port ← motor_deref index;
       if decide (tim port ≠ lastTimerPtr)
       then port' ← motor_deref index;
            port'' ← motor_deref index;
            hal (Call_timerForceOverflow (tim port''));;
            mret (tim port')
       else mret lastTimerPtr)
    None;;
  for_index 0 motorCount
    (λ index _, port ← motor_deref index; store_ccr (ccr port) 0) tt.

Definition isMotorBrushed (motorPwmRate : Z) : bool :=
  bool_decide (500 < motorPwmRate).

(** *** Motor and servo configuration *)

Definition pwmBrushedMotorConfig (timerHardware : timerHardware_t)
    (motorIndex : nat) (motorPwmRate idlePulse : Z) : M unit :=
  let hz := to_uint32 (int_mul PWM_BRUSHED_TIMER_MHZ 1000000) in
  if decide (motorPwmRate = 0) then fault else
  p ← pwmOutConfig timerHardware (to_uint8 PWM_BRUSHED_TIMER_MHZ)
        (to_uint16 (hz / motorPwmRate)) idlePulse;
  store_motor motorIndex p;;
  m ← load_motor motorIndex;
  update_port m (set_pwmWritePtr (Some Ptr_pwmWriteBrushed)).

Definition pwmBrushlessMotorConfig (timerHardware : timerHardware_t)
    (motorIndex : nat) (motorPwmRate idlePulse : Z) : M unit :=
  let hz := to_uint32 (int_mul PWM_TIMER_MHZ 1000000) in
  if decide (motorPwmRate = 0) then fault else
  p ← pwmOutConfig timerHardware (to_uint8 PWM_TIMER_MHZ)
        (to_uint16 (hz / motorPwmRate)) idlePulse;
  store_motor motorIndex p;;
  m ← load_motor motorIndex;
  update_port m (set_pwmWritePtr (Some Ptr_pwmWriteStandard)).

Definition pwmOneshotMotorConfig (timerHardware : timerHardware_t)
    (motorIndex : nat) : M unit :=
  p ← pwmOutConfig timerHardware (to_uint8 ONESHOT125_TIMER_MHZ) 65535 0;
  store_motor motorIndex p;;
  m ← load_motor motorIndex;
  update_port m (set_pwmWritePtr (Some Ptr_pwmWriteStandard)).

Definition pwmServoConfig (timerHardware : timerHardware_t)
    (servoIndex : nat) (servoPwmRate servoCenterPulse : Z) : M unit :=
  if decide (servoPwmRate = 0) then fault else
  p ← pwmOutConfig timerHardware (to_uint8 PWM_TIMER_MHZ)
        (to_uint16 (int_div 1000000 servoPwmRate)) servoCenterPulse;
  store_servo servoIndex p.

Definition pwmWriteServo (index : nat) (value : Z) : M unit :=
  m ← load_servo index;
  if bool_decide (m ≠ None) && bool_decide (index < MAX_SERVOS)%nat
  then m' ← load_servo index;
       port ← load_port m';
       store_ccr (ccr port) value
  else mret tt.

End Driver.

(** ** Observations on a driver state *)

Section Observations.
Context `{board : Platform}.

(** The port a motor slot is bound to: [None] when the index lies outside
    [motors], the slot is null, or the pointer leaves the pool. *)
Definition motor_port (s : state) (i : nat) : option pwmOutputPort_t :=
  match motors s !! i with
  | Some (Some k) => pwmOutputPorts s !! k
  | _ => None
  end.

Definition servo_port (s : state) (j : nat) : option pwmOutputPort_t :=
  match servos s !! j with
  | Some (Some k) => pwmOutputPorts s !! k
  | _ => None
  end.

(** The compare register and the timer of a motor. *)
Definition motor_ccr (s : state) (i : nat) : option ccr_ref :=
  match motor_port s i with Some port => ccr port | None => None end.

Definition motor_tim (s : state) (i : nat) : option timer :=
  match motor_port s i with Some port => tim port | None => None end.

(** What a motor's compare register reads. *)
Definition motor_reading (s : state) (i : nat) : option Z :=
  match motor_ccr s i with Some r => ccr_regs s !! r | None => None end.

(** A motor slot as a successful configuration call leaves it: bound to a
    port whose register, timer and write function are all set. *)
Definition motor_slot_configured (s : state) (i : nat) : bool :=
  match motor_port s i with
  | Some port =>
      bool_decide (is_Some (ccr port)) && bool_decide (is_Some (tim port))
      && bool_decide (is_Some (pwmWritePtr port))
  | None => false
  end.

(** Motor slots [0 .. N-1] are all configured. *)
Definition motors_configured (s : state) (N : nat) : Prop :=
  ∀ i, (i < N)%nat → motor_slot_configured s i = true.

(** The registers and the timers of motors [first .. first+n-1]. *)
Definition motor_ccrs (s : state) (first n : nat) : list ccr_ref :=
  omap (motor_ccr s) (seq first n).

Definition motor_tims (s : state) (first n : nat) : list (option timer) :=
  map (motor_tim s) (seq first n).

(** The state after [*r = v] for a value [v] of the register's type. *)
Definition stored (r : ccr_ref) (v : Z) (s : state) : state :=
  with_log (hw_log s ++ [Store_ccr r v]) (with_regs (<[r := v]> (ccr_regs s)) s).

(** The state after zero has been stored to each register of [rs] in turn. *)
Definition zeroed (rs : list ccr_ref) (s : state) : state :=
  with_log (hw_log s ++ map (λ r, Store_ccr r 0) rs)
    (with_regs (foldl (λ m r, <[r := 0]> m) (ccr_regs s) rs) s).

(** The state after the calls [es] have been made. *)
Definition called (es : list hw_call) (s : state) : state :=
  with_log (hw_log s ++ es) s.

(** The timers the first pass of the oneshot routine forces, for the timers
    [ts] of the motors it scans and the cursor [last]. *)
Fixpoint timer_changes (last : option timer) (ts : list (option timer))
    : list (option timer) :=
  match ts with
  | [] => []
  | t :: ts' =>
      if decide (t ≠ last) then t :: timer_changes t ts'
      else timer_changes last ts'
  end.

(** The calls logged between two states. *)
Definition new_calls (s s' : state) : list hw_call :=
  drop (length (hw_log s)) (hw_log s').

(** How often [calls] force timer [t] to overflow. *)
Definition overflow_count (t : timer) (calls : list hw_call) : nat :=
  length (filter (λ e, e = Call_timerForceOverflow (Some t)) calls).

(** Motors that share a timer sit at consecutive indices. *)
Definition timers_index_adjacent (s : state) (N : nat) : Prop :=
  ∀ i j k, (i ≤ j)%nat → (j ≤ k)%nat → (k < N)%nat →
    motor_tim s i = motor_tim s k → motor_tim s j = motor_tim s i.

(** The same on a list of timers. *)
Definition grouped (ts : list (option timer)) : Prop :=
  ∀ i j k a, (i ≤ j)%nat → (j ≤ k)%nat →
    ts !! i = Some a → ts !! k = Some a → ts !! j = Some a.

(** One oneshot cycle over [N] motors forces every timer among them once
    and leaves every motor's compare register reading zero. *)
Definition oneshot_forces_each_timer_once (s : state) (N : nat) : Prop :=
  ∃ s', pwmCompleteOneshotMotorUpdate N s = Done tt s' ∧
    (∀ t, (∃ i, (i < N)%nat ∧ motor_tim s i = Some t) →
       overflow_count t (new_calls s s') = 1%nat) ∧
    (∀ i, (i < N)%nat → motor_reading s' i = Some 0).

(** The pulse a write function computes from a command value. *)
Definition pulse_of (f : pwmWriteFuncPtr) (period value : Z) : Z :=
  match f with
  | Ptr_pwmWriteBrushed => int_div (int_mul (int_sub value 1000) period) 1000
  | Ptr_pwmWriteStandard => value
  end.

(** What a servo's compare register reads. *)
Definition servo_reading (s : state) (j : nat) : option Z :=
  match servo_port s j with
  | Some port =>
      match ccr port with Some r => ccr_regs s !! r | None => None end
  | None => None
  end.

(** What motor [i]'s compare register reads after [pwmWriteMotor i v]. *)
Definition motor_write_reading (s : state) (i : nat) (v : Z) : option Z :=
  match pwmWriteMotor i v s with
  | Done _ s' => motor_reading s' i
  | Fault => None
  end.


(** A computation that leaves [allocatedOutputPortCount] as it found it. *)
Definition keeps_count {A} (m : M A) : Prop :=
  ∀ s a s', m s = Done a s' →
    allocatedOutputPortCount s' = allocatedOutputPortCount s.

(** A computation that advances [allocatedOutputPortCount] by one
    [uint8_t] increment. *)
Definition bumps_count {A} (m : M A) : Prop :=
  ∀ s a s', m s = Done a s' →
    allocatedOutputPortCount s' = ((allocatedOutputPortCount s + 1) mod 256)%nat.


(** The compare register the [switch] of [pwmOutConfig] selects. *)
Definition channel_ccr (ch : tim_channel) : option ccr_id :=
  match ch with
  | TIM_CHANNEL_1 => Some CCR1
  | TIM_CHANNEL_2 => Some CCR2
  | TIM_CHANNEL_3 => Some CCR3
  | TIM_CHANNEL_4 => Some CCR4
  | TIM_CHANNEL_ALL => None
  end.

(** The port a configuration call leaves behind for a resolved timer. *)
Definition configured_port (hw : timerHardware_t) (reg : ccr_id)
    (period : Z) (f : option pwmWriteFuncPtr) : pwmOutputPort_t :=
  {| ccr := Some (hw_tim hw, reg); tim := Some (hw_tim hw);
     period := period; pwmWritePtr := f |}.


(** An operation returns. *)
Definition succeeds {A} (o : outcome A) : Prop := ∃ a s', o = Done a s'.

(** A brushed write below 1000 stores the negative quotient modulo [2^w]. *)
Definition brushed_underrange_wraps (s : state) (i : nat) (v : Z) : Prop :=
  ∃ s' port x,
    pwmWriteMotor i v s = Done tt s' ∧ motor_port s i = Some port ∧
    motor_reading s' i = Some x ∧
    (v - 1000) * period port ÷ 1000 < 0 ∧
    x = 2 ^ ccr_bits + (v - 1000) * period port ÷ 1000.


(** Executable forms of [motors_configured] and [dispatch_wf]. *)
Definition motors_configured_check (s : state) (N : nat) : bool :=
  forallb (motor_slot_configured s) (seq 0 N).





(** The entry points of the driver that act on its state. *)
Inductive pwm_op :=
  | Op_pwmWriteMotor (index : nat) (value : Z)
  | Op_pwmShutdownPulsesForAllMotors (motorCount : nat)
  | Op_pwmDisableMotors
  | Op_pwmEnableMotors
  | Op_pwmCompleteOneshotMotorUpdate (motorCount : nat)
  | Op_pwmBrushedMotorConfig (hw : timerHardware_t) (motorIndex : nat)
      (motorPwmRate idlePulse : Z)
  | Op_pwmBrushlessMotorConfig (hw : timerHardware_t) (motorIndex : nat)
      (motorPwmRate idlePulse : Z)
  | Op_pwmOneshotMotorConfig (hw : timerHardware_t) (motorIndex : nat)
  | Op_pwmServoConfig (hw : timerHardware_t) (servoIndex : nat)
      (servoPwmRate servoCenterPulse : Z)
  | Op_pwmWriteServo (index : nat) (value : Z).

Definition run_op (op : pwm_op) : M unit :=
  match op with
  | Op_pwmWriteMotor index value => pwmWriteMotor index value
  | Op_pwmShutdownPulsesForAllMotors n => pwmShutdownPulsesForAllMotors n
  | Op_pwmDisableMotors => pwmDisableMotors
  | Op_pwmEnableMotors => pwmEnableMotors
  | Op_pwmCompleteOneshotMotorUpdate n => pwmCompleteOneshotMotorUpdate n
  | Op_pwmBrushedMotorConfig hw i rate idle => pwmBrushedMotorConfig hw i rate idle
  | Op_pwmBrushlessMotorConfig hw i rate idle =>
      pwmBrushlessMotorConfig hw i rate idle
  | Op_pwmOneshotMotorConfig hw i => pwmOneshotMotorConfig hw i
  | Op_pwmServoConfig hw j rate centre => pwmServoConfig hw j rate centre
  | Op_pwmWriteServo index value => pwmWriteServo index value
  end.

(** A start-up sequence, run from the initial statics. *)
Definition configure (ops : list pwm_op) : state :=
  final_state pwm_init (foldr (λ op k, run_op op;; k) (mret tt) ops pwm_init).

(** ** Further observations *)

(** Two states with the same pool, dispatch tables, cursor and gate. *)
Definition same_tables (s s' : state) : Prop :=
  pwmOutputPorts s' = pwmOutputPorts s ∧ motors s' = motors s ∧
  servos s' = servos s ∧
  allocatedOutputPortCount s' = allocatedOutputPortCount s ∧
  pwmMotorsEnabled s' = pwmMotorsEnabled s.

(** A computation that, when it returns, has left the pool, the dispatch
    tables, the cursor and the gate as it found them. *)
Definition keeps_tables {A} (m : M A) : Prop :=
  ∀ s a s', m s = Done a s' → same_tables s s'.

(** Every motor slot below [N] leads to a compare register. *)
Definition motors_registered (s : state) (N : nat) : Prop :=
  ∀ i, (i < N)%nat → is_Some (motor_ccr s i).

(** A sequence of calls into the driver. *)
Definition run_ops (ops : list pwm_op) : M unit :=
  foldr (λ op k, run_op op;; k) (mret tt) ops.

(** The entry points that call [pwmOutConfig]. *)
Definition is_config (op : pwm_op) : bool :=
  match op with
  | Op_pwmBrushedMotorConfig _ _ _ _ | Op_pwmBrushlessMotorConfig _ _ _ _
  | Op_pwmOneshotMotorConfig _ _ | Op_pwmServoConfig _ _ _ _ => true
  | _ => false
  end.

Fixpoint config_count (ops : list pwm_op) : nat :=
  match ops with
  | [] => 0
  | op :: ops' => ((if is_config op then 1 else 0) + config_count ops')%nat
  end.

(** The descriptor a configuration call is given. *)
Definition op_hardware (op : pwm_op) : option timerHardware_t :=
  match op with
  | Op_pwmBrushedMotorConfig hw _ _ _ | Op_pwmBrushlessMotorConfig hw _ _ _
  | Op_pwmOneshotMotorConfig hw _ | Op_pwmServoConfig hw _ _ _ => Some hw
  | _ => None
  end.


(** The calls [pwmOutConfig] makes for a timer whose handle is [h]. *)
Definition pwmOutConfig_calls (hw : timerHardware_t) (h : tim_handle)
    (mhz period value : Z) : list hw_call :=
  [ Call_configTimeBase (hw_tim hw) period mhz;
    Call_HAL_GPIO_Init (hw_gpio hw) (hw_pin hw) (hw_alternateFunction hw)
      (hw_gpioInputMode hw);
    Call_HAL_TIM_PWM_ConfigChannel h value (hw_channel hw);
    (if hw_outputEnable hw
     then Call_HAL_TIM_PWM_Start h (hw_channel hw)
     else Call_HAL_TIM_PWM_Stop h (hw_channel hw));
    Call_HAL_TIM_Base_Start h ].


(** The pool slot as [pwmOutConfig] leaves it for a timer with a handle: the
    register is set only if the [switch] has a case for the channel. *)
Definition pwmOutConfig_port (hw : timerHardware_t) (period : Z)
    (port0 : pwmOutputPort_t) : pwmOutputPort_t :=
  {| ccr := match channel_ccr (hw_channel hw) with
            | Some reg => Some (hw_tim hw, reg)
            | None => ccr port0
            end;
     tim := Some (hw_tim hw);
     period := period;
     pwmWritePtr := pwmWritePtr port0 |}.

(** The pool slot and the hardware calls of [pwmOutConfig], with or without
    a handle for the timer. *)
Definition allocated_port (hw : timerHardware_t) (period : Z)
    (port0 : pwmOutputPort_t) : pwmOutputPort_t :=
  match timerFindTimerHandle (hw_tim hw) with
  | Some _ => pwmOutConfig_port hw period port0
  | None => port0
  end.

Definition allocated_calls (hw : timerHardware_t) (mhz period value : Z)
    : list hw_call :=
  match timerFindTimerHandle (hw_tim hw) with
  | Some h => pwmOutConfig_calls hw h mhz period value
  | None => []
  end.

(** What one allocation changes besides the dispatch tables: slot [k] of
    the pool becomes [port], the cursor advances, [calls] are logged. *)
Definition allocation_step (s s' : state) (port : pwmOutputPort_t)
    (calls : list hw_call) : Prop :=
  pwmOutputPorts s'
  = <[allocatedOutputPortCount s := port]> (pwmOutputPorts s) ∧
  allocatedOutputPortCount s' = ((allocatedOutputPortCount s + 1) mod 256)%nat ∧
  pwmMotorsEnabled s' = pwmMotorsEnabled s ∧
  ccr_regs s' = ccr_regs s ∧
  hw_log s' = hw_log s ++ calls.


(** The motor slot a configuration call assigns. *)
Definition op_motor_index (op : pwm_op) : option nat :=
  match op with
  | Op_pwmBrushedMotorConfig _ i _ _ | Op_pwmBrushlessMotorConfig _ i _ _
  | Op_pwmOneshotMotorConfig _ i => Some i
  | _ => None
  end.






End Observations.

(** ** A sample board

    One choice of the build constants (those of the project's headers, a
    32-bit [timCCR_t], fourteen timers with a handle), used to run the driver
    on concrete inputs. *)

Definition sample_board : Platform :=
  {| MAX_MOTORS := 12; MAX_SERVOS := 8;
     MAX_PWM_MOTORS := 12; MAX_PWM_SERVOS := 8;
     PWM_BRUSHED_TIMER_MHZ := 8; PWM_TIMER_MHZ := 1;
     ONESHOT125_TIMER_MHZ := 8;
     ccr_bits := 32;
     timerFindTimerHandle := λ t, if decide (t < 14)%nat then Some t else None |}.

Section Samples.
#[local] Existing Instance sample_board.

Definition sample_hw (t : timer) (ch : tim_channel) : timerHardware_t :=
  {| hw_tim := t; hw_channel := ch; hw_outputEnable := true;
     hw_gpio := 0; hw_pin := 1; hw_alternateFunction := 2;
     hw_gpioInputMode := 3 |}.
Arguments sample_hw t%_nat ch.

(** Three oneshot motors; motors 0 and 2 share timer 1, motor 1 sits
    between them on timer 2. *)
Definition oneshot_interleaved : state :=
  configure [Op_pwmOneshotMotorConfig (sample_hw 1 TIM_CHANNEL_1) 0;
             Op_pwmOneshotMotorConfig (sample_hw 2 TIM_CHANNEL_1) 1;
             Op_pwmOneshotMotorConfig (sample_hw 1 TIM_CHANNEL_2) 2].

(** Three oneshot motors; motors 0 and 1 share timer 1, motor 2 is on
    timer 2. *)
Definition oneshot_adjacent : state :=
  configure [Op_pwmOneshotMotorConfig (sample_hw 1 TIM_CHANNEL_1) 0;
             Op_pwmOneshotMotorConfig (sample_hw 1 TIM_CHANNEL_2) 1;
             Op_pwmOneshotMotorConfig (sample_hw 2 TIM_CHANNEL_1) 2].

(** One brushed motor at 16 kHz (period 500) and one servo at 50 Hz. *)
Definition brushed_and_servo : state :=
  configure [Op_pwmBrushedMotorConfig (sample_hw 1 TIM_CHANNEL_1) 0 16000 0;
             Op_pwmServoConfig (sample_hw 3 TIM_CHANNEL_2) 0 50 1500].

(** The ports of [brushed_and_servo]. *)
Definition sample_brushed_port : pwmOutputPort_t :=
  {| ccr := Some (1%nat, CCR1); tim := Some 1%nat; period := 500;
     pwmWritePtr := Some Ptr_pwmWriteBrushed |}.

Definition sample_servo_port : pwmOutputPort_t :=
  {| ccr := Some (3%nat, CCR2); tim := Some 3%nat; period := 20000;
     pwmWritePtr := None |}.


(** The start-up sequence of [brushed_and_servo], and its first call alone. *)
Definition sample_startup : list pwm_op :=
  [Op_pwmBrushedMotorConfig (sample_hw 1 TIM_CHANNEL_1) 0 16000 0;
   Op_pwmServoConfig (sample_hw 3 TIM_CHANNEL_2) 0 50 1500].


(** A oneshot motor configured on timer 20, which has no handle. *)
Definition oneshot_unresolved : state :=
  configure [Op_pwmOneshotMotorConfig (sample_hw 20 TIM_CHANNEL_1) 0].


End Samples.

(** ** Properties of the driver *)

Section Properties.
Context `{board : Platform}.

(** *** The monad *)

Lemma bind_done {A B} (m : M A) (k : A → M B) s a s' :
  m s = Done a s' → (m ≫= k) s = k a s'.
Proof. intros E. unfold mbind, M_bind, bind. by rewrite E. Qed.

Lemma bind_fault {A B} (m : M A) (k : A → M B) s :
  m s = Fault → (m ≫= k) s = Fault.
Proof. intros E. unfold mbind, M_bind, bind. by rewrite E. Qed.

Lemma bind_inv {A B} (m : M A) (k : A → M B) s b s2 :
  (m ≫= k) s = Done b s2 → ∃ a s1, m s = Done a s1 ∧ k a s1 = Done b s2.
Proof.
  unfold mbind, M_bind, bind. destruct (m s) as [a s1|] eqn:E; [|done].
  intros Hk. by exists a, s1.
Qed.

(** *** Memory accesses *)

Lemma load_motor_slot s i m :
  motors s !! i = Some m → load_motor i s = Done m s.
Proof. intros Hm. unfold load_motor. by rewrite Hm. Qed.

Lemma load_servo_slot s j m :
  servos s !! j = Some m → load_servo j s = Done m s.
Proof. intros Hm. unfold load_servo. by rewrite Hm. Qed.

Lemma load_port_at s k port :
  pwmOutputPorts s !! k = Some port → load_port (Some k) s = Done port s.
Proof. intros Hp. unfold load_port. by rewrite Hp. Qed.

Lemma motor_deref_port s i port :
  motor_port s i = Some port → motor_deref i s = Done port s.
Proof.
  unfold motor_port, motor_deref, load_motor, load_port, mbind, M_bind, bind.
  destruct (motors s !! i) as [[k|]|]; [|done..].
  by intros ->.
Qed.

Lemma motor_deref_unbound s i :
  motor_port s i = None → motor_deref i s = Fault.
Proof.
  unfold motor_port, motor_deref, load_motor, load_port, mbind, M_bind, bind.
  destruct (motors s !! i) as [[k|]|]; [|done..].
  by intros ->.
Qed.

Lemma motor_slot_configured_inv s i :
  motor_slot_configured s i = true →
  ∃ port r t f, motor_port s i = Some port ∧ ccr port = Some r ∧
    tim port = Some t ∧ pwmWritePtr port = Some f.
Proof.
  unfold motor_slot_configured.
  destruct (motor_port s i) as [port|]; [|done].
  rewrite !andb_true_iff, !bool_decide_eq_true.
  intros [[[r Hr] [t Ht]] [f Hf]]. by exists port, r, t, f.
Qed.

Lemma store_ccr_bound r v s :
  store_ccr (Some r) v s = Done tt (stored r (to_timCCR v) s).
Proof. reflexivity. Qed.

Lemma to_timCCR_0 : to_timCCR 0 = 0.
Proof. apply Zmod_0_l. Qed.

Lemma to_timCCR_small v :
  16 ≤ ccr_bits → 0 ≤ v < 2 ^ 16 → to_timCCR v = v.
Proof.
  intros Hw Hv. apply Z.mod_small. split; [lia|].
  apply Z.lt_le_trans with (2 ^ 16); [lia|].
  apply Z.pow_le_mono_r; lia.
Qed.

(** *** Register files *)

Lemma zeroing_keeps_zero (rs : list ccr_ref) (m : gmap ccr_ref Z) r :
  m !! r = Some 0 → foldl (λ m r, <[r := 0]> m) m rs !! r = Some 0.
Proof.
  revert m. induction rs as [|a rs IH]; intros m Hm; [done|].
  cbn [foldl]. apply IH.
  destruct (decide (a = r)) as [->|Hne].
  - apply lookup_insert_eq.
  - by rewrite lookup_insert_ne.
Qed.

Lemma zeroing_zeroes (rs : list ccr_ref) (m : gmap ccr_ref Z) r :
  r ∈ rs → foldl (λ m r, <[r := 0]> m) m rs !! r = Some 0.
Proof.
  revert m. induction rs as [|a rs IH]; intros m Hin.
  - by apply elem_of_nil in Hin.
  - cbn [foldl]. apply elem_of_cons in Hin as [->|Hin].
    + apply zeroing_keeps_zero, lookup_insert_eq.
    + by apply IH.
Qed.

Lemma zeroed_step r rs s :
  zeroed rs (stored r 0 s) = zeroed (r :: rs) s.
Proof.
  unfold zeroed, stored, with_log, with_regs. cbn.
  by rewrite <- app_assoc.
Qed.

Lemma called_step e es s :
  called es (called [e] s) = called (e :: es) s.
Proof.
  unfold called, with_log. cbn. by rewrite <- app_assoc.
Qed.

Lemma zeroed_nil s : zeroed [] s = s.
Proof.
  unfold zeroed, with_log, with_regs. cbn. rewrite app_nil_r. by destruct s.
Qed.

Lemma called_nil s : called [] s = s.
Proof. unfold called, with_log. rewrite app_nil_r. by destruct s. Qed.

(** *** The two loops over the motor table *)

Lemma motor_ccrs_step s first n r :
  motor_ccr s first = Some r →
  motor_ccrs s first (S n) = r :: motor_ccrs s (S first) n.
Proof. intros Hr. unfold motor_ccrs. simpl. by rewrite Hr. Qed.

Lemma motor_ccrs_length s first n :
  (∀ i, (first ≤ i < first + n)%nat → motor_slot_configured s i = true) →
  length (motor_ccrs s first n) = n.
Proof.
  revert first. induction n as [|n IH]; intros first Hcfg; [done|].
  destruct (motor_slot_configured_inv s first) as (port & r & t & f & Hp & Hr & _);
    [apply Hcfg; lia|].
  rewrite (motor_ccrs_step _ _ _ r); [|unfold motor_ccr; by rewrite Hp].
  cbn [length]. f_equal. apply IH. intros i Hi. apply Hcfg. lia.
Qed.

Lemma zero_loop first n s :
  (∀ i, (first ≤ i < first + n)%nat → motor_slot_configured s i = true) →
  for_index first n
    (λ index _, port ← motor_deref index; store_ccr (ccr port) 0) tt s
  = Done tt (zeroed (motor_ccrs s first n) s).
Proof.
  revert first s. induction n as [|n IH]; intros first s Hcfg.
  - cbn. by rewrite zeroed_nil.
  - destruct (motor_slot_configured_inv s first)
      as (port & r & t & f & Hp & Hr & _); [apply Hcfg; lia|].
    cbn [for_index].
    rewrite (bind_done _ _ s tt (stored r 0 s)).
    + rewrite IH.
      * rewrite (motor_ccrs_step s first n r); [|unfold motor_ccr; by rewrite Hp].
        f_equal. apply zeroed_step.
      * intros i Hi. apply (Hcfg i). lia.
    + rewrite (bind_done _ _ s port s); [|by apply motor_deref_port].
      by rewrite Hr, store_ccr_bound, to_timCCR_0.
Qed.

Lemma scan_loop first n last s :
  (∀ i, (first ≤ i < first + n)%nat → motor_slot_configured s i = true) →
  ∃ last',
    for_index first n
      (λ index lastTimerPtr,
         port ← motor_deref index;
         if decide (tim port ≠ lastTimerPtr)
         then port' ← motor_deref index;
              port'' ← motor_deref index;
              hal (Call_timerForceOverflow (tim port''));;
              mret (tim port')
         else mret lastTimerPtr)
      last s
    = Done last'
        (called (map Call_timerForceOverflow
                   (timer_changes last (motor_tims s first n))) s).
Proof.
  revert first last s. induction n as [|n IH]; intros first last s Hcfg.
  - exists last. cbn. by rewrite called_nil.
  - destruct (motor_slot_configured_inv s first)
      as (port & r & t & f & Hp & _ & Ht & _); [apply Hcfg; lia|].
    assert (Htim : motor_tim s first = tim port)
      by (unfold motor_tim; by rewrite Hp).
    cbn [for_index]. unfold motor_tims. cbn [seq map timer_changes].
    rewrite Htim.
    destruct (decide (tim port ≠ last)) as [Hne|Heq].
    + destruct (IH (S first) (tim port)
                  (called [Call_timerForceOverflow (tim port)] s))
        as [last' Hrun]; [intros i Hi; apply (Hcfg i); lia|].
      exists last'.
      rewrite (bind_done _ _ s (tim port)
                 (called [Call_timerForceOverflow (tim port)] s)).
      * rewrite Hrun. f_equal. apply called_step.
      * rewrite (bind_done _ _ s port s); [|by apply motor_deref_port].
        rewrite decide_True by done.
        rewrite (bind_done _ _ s port s); [|by apply motor_deref_port].
        by rewrite (bind_done _ _ s port s); [|by apply motor_deref_port].
    + destruct (IH (S first) last s) as [last' Hrun];
        [intros i Hi; apply (Hcfg i); lia|].
      exists last'.
      rewrite (bind_done _ _ s last s); [done|].
      rewrite (bind_done _ _ s port s); [|by apply motor_deref_port].
      by rewrite decide_False by done.
Qed.

Lemma pwmCompleteOneshotMotorUpdate_run N s :
  motors_configured s N →
  pwmCompleteOneshotMotorUpdate N s
  = Done tt
      (zeroed (motor_ccrs s 0 N)
         (called (map Call_timerForceOverflow
                    (timer_changes None (motor_tims s 0 N))) s)).
Proof.
  intros Hcfg. unfold pwmCompleteOneshotMotorUpdate.
  destruct (scan_loop 0 N None s) as [last' Hscan];
    [intros i Hi; apply Hcfg; lia|].
  rewrite (bind_done _ _ _ _ _ Hscan).
  rewrite (zero_loop 0 N); [done|].
  intros i Hi. apply (Hcfg i). lia.
Qed.

Lemma pwmShutdownPulsesForAllMotors_run N s :
  motors_configured s N →
  pwmShutdownPulsesForAllMotors N s = Done tt (zeroed (motor_ccrs s 0 N) s).
Proof.
  intros Hcfg. apply (zero_loop 0 N). intros i Hi. apply Hcfg. lia.
Qed.

(** *** Which timers the first pass forces *)

(** Counting the forced overflows of a timer among logged calls. *)
Lemma overflow_count_forced t (ts : list (option timer)) :
  overflow_count t (map Call_timerForceOverflow ts)
  = length (filter (λ x, x = Some t) ts).
Proof.
  unfold overflow_count. induction ts as [|x ts IH]; [done|].
  cbn [map]. rewrite !filter_cons.
  destruct (decide (x = Some t)) as [->|Hne].
  - rewrite decide_True by done. cbn [length]. by rewrite IH.
  - rewrite decide_False by congruence. done.
Qed.

Lemma overflow_count_stores t (rs : list ccr_ref) :
  overflow_count t (map (λ r, Store_ccr r 0) rs) = 0%nat.
Proof.
  unfold overflow_count. induction rs as [|r rs IH]; [done|].
  cbn [map]. rewrite filter_cons. by rewrite decide_False by done.
Qed.

Lemma overflow_count_app t (l k : list hw_call) :
  overflow_count t (l ++ k) = (overflow_count t l + overflow_count t k)%nat.
Proof. unfold overflow_count. by rewrite filter_app, length_app. Qed.

Lemma grouped_tail x ts : grouped (x :: ts) → grouped ts.
Proof.
  intros G i j k a Hij Hjk Hi Hk.
  apply (G (S i) (S j) (S k) a); [lia|lia|done..].
Qed.

Lemma grouped_skip last x ts :
  grouped (last :: x :: ts) → x ≠ last → last ∉ ts.
Proof.
  intros G Hne Hin. apply list_elem_of_lookup in Hin as [k Hk].
  assert (Hx : (last :: x :: ts) !! 1%nat = Some last)
    by (apply (G 0 1 (S (S k)) last)%nat; [lia|lia|done..]).
  cbn in Hx. congruence.
Qed.

Lemma timer_changes_count t last ts :
  grouped (last :: ts) →
  length (filter (λ x, x = t) (timer_changes last ts))
  = if decide (t ∈ ts ∧ t ≠ last) then 1%nat else 0%nat.
Proof.
  revert last. induction ts as [|x ts IH]; intros last G.
  - cbn. rewrite decide_False; [done|]. intros [Hin _].
    by apply elem_of_nil in Hin.
  - cbn [timer_changes]. destruct (decide (x ≠ last)) as [Hne|Heq].
    + pose proof (grouped_skip _ _ _ G Hne) as Hlast.
      rewrite filter_cons.
      destruct (decide (x = t)) as [->|Hxt]; cbn [length];
        rewrite (IH _ (grouped_tail _ _ G)).
      * rewrite decide_False by (intros [_ ?]; done).
        rewrite decide_True; [done|]. split; [apply elem_of_cons; by left|done].
      * destruct (decide (t ∈ ts)) as [Hin|Hnin].
        -- rewrite !decide_True; [done| |done].
           split; [apply elem_of_cons; by right|]. by intros ->.
        -- rewrite !decide_False; [done| |by intros [? _]].
           intros [Hc _]. apply elem_of_cons in Hc as [->|?]; done.
    + apply dec_stable in Heq. subst x.
      rewrite (IH last (grouped_tail _ _ G)).
      destruct (decide (t ∈ ts ∧ t ≠ last)) as [[Hin Hne]|Hno].
      * rewrite decide_True; [done|]. split; [apply elem_of_cons; by right|done].
      * rewrite decide_False; [done|]. intros [Hc Hne]. apply Hno.
        apply elem_of_cons in Hc as [->|?]; done.
Qed.

Lemma motor_tims_lookup s first n i :
  (i < n)%nat → motor_tims s first n !! i = Some (motor_tim s (first + i)).
Proof.
  intros Hi. unfold motor_tims. rewrite list_lookup_fmap.
  by rewrite lookup_seq_lt.
Qed.

Lemma motor_tims_lookup_inv s first n i a :
  motor_tims s first n !! i = Some a →
  (i < n)%nat ∧ a = motor_tim s (first + i).
Proof.
  intros Hl. assert (Hi : (i < n)%nat).
  { apply lookup_lt_Some in Hl. unfold motor_tims in Hl.
    by rewrite length_map, length_seq in Hl. }
  rewrite motor_tims_lookup in Hl by done. split; congruence.
Qed.

Lemma motor_tims_bound s N a :
  motors_configured s N → a ∈ motor_tims s 0 N → a ≠ None.
Proof.
  intros Hcfg Hin ->. apply list_elem_of_lookup in Hin as [i Hi].
  apply motor_tims_lookup_inv in Hi as [Hi Ha]. cbn in Ha.
  destruct (motor_slot_configured_inv s i (Hcfg i Hi))
    as (port & r & t & f & Hp & _ & Ht & _).
  unfold motor_tim in Ha. rewrite Hp in Ha. congruence.
Qed.

Lemma adjacent_grouped s N :
  motors_configured s N → timers_index_adjacent s N →
  grouped (None :: motor_tims s 0 N).
Proof.
  intros Hcfg Hadj i j k a Hij Hjk Hi Hk.
  destruct i as [|i].
  - cbn in Hi. injection Hi as <-. destruct k as [|k].
    + by replace j with 0%nat by lia.
    + cbn in Hk. exfalso.
      apply (motor_tims_bound s N None Hcfg); [|done].
      apply list_elem_of_lookup. by exists k.
  - destruct j as [|j]; [lia|]. destruct k as [|k]; [lia|].
    cbn in Hi, Hk |- *.
    apply motor_tims_lookup_inv in Hi as [Hi Hai].
    apply motor_tims_lookup_inv in Hk as [Hk Hak].
    rewrite motor_tims_lookup by lia. cbn in Hai, Hak |- *.
    f_equal. rewrite Hai. apply (Hadj i j k); [lia|lia|done|congruence].
Qed.

(** *** What the motors read after their registers are zeroed *)

Lemma motor_ccr_listed s N i r :
  (i < N)%nat → motor_ccr s i = Some r → r ∈ motor_ccrs s 0 N.
Proof.
  intros Hi Hr. unfold motor_ccrs. apply list_elem_of_omap.
  exists i. split; [|done]. apply elem_of_seq. lia.
Qed.

Lemma zeroed_reading s s0 N i :
  motors s0 = motors s → pwmOutputPorts s0 = pwmOutputPorts s →
  motors_configured s N → (i < N)%nat →
  motor_reading (zeroed (motor_ccrs s 0 N) s0) i = Some 0.
Proof.
  intros Hm Hp Hcfg Hi.
  destruct (motor_slot_configured_inv s i (Hcfg i Hi))
    as (port & r & t & f & Hport & Hr & _).
  assert (Hccr : motor_ccr s i = Some r) by (unfold motor_ccr; by rewrite Hport).
  assert (Hsame : motor_ccr (zeroed (motor_ccrs s 0 N) s0) i = motor_ccr s i).
  { unfold motor_ccr, motor_port. cbn. by rewrite Hm, Hp. }
  unfold motor_reading. rewrite Hsame, Hccr. cbn.
  apply zeroing_zeroes. by apply (motor_ccr_listed s N i).
Qed.

Lemma new_calls_app s es s' :
  hw_log s' = hw_log s ++ es → new_calls s s' = es.
Proof. intros E. unfold new_calls. rewrite E. apply drop_app_length. Qed.

(** *** The oneshot cycle *)

(** C1 (amended): when motor slots [0 .. N-1] are all configured,
    [pwmCompleteOneshotMotorUpdate N] returns, has forced a timer to overflow
    once for each run of index-consecutive motors bound to the same timer,
    and leaves every one of the [N] motors' compare registers reading 0; when
    moreover the motors that share a timer sit at consecutive indices, each
    timer found among those motors has been forced exactly once. *)
Theorem pwmCompleteOneshotMotorUpdate_once_per_timer_run N s :
  motors_configured s N →
  (∃ s', pwmCompleteOneshotMotorUpdate N s = Done tt s' ∧
         new_calls s s'
         = map Call_timerForceOverflow
             (timer_changes None (motor_tims s 0 N))
           ++ map (λ r, Store_ccr r 0) (motor_ccrs s 0 N) ∧
         ∀ i, (i < N)%nat → motor_reading s' i = Some 0) ∧
  (timers_index_adjacent s N → oneshot_forces_each_timer_once s N).
Proof.
  intros Hcfg.
  assert (Hnew :
    new_calls s
      (zeroed (motor_ccrs s 0 N)
         (called (map Call_timerForceOverflow
                    (timer_changes None (motor_tims s 0 N))) s))
    = map Call_timerForceOverflow (timer_changes None (motor_tims s 0 N))
      ++ map (λ r, Store_ccr r 0) (motor_ccrs s 0 N)).
  { apply new_calls_app. unfold zeroed, called. cbn. by rewrite <- app_assoc. }
  split.
  - eexists. split; [by apply pwmCompleteOneshotMotorUpdate_run|].
    split; [done|]. intros i Hi. by apply zeroed_reading.
  - intros Hadj. eexists.
    split; [by apply pwmCompleteOneshotMotorUpdate_run|]. split.
    + intros t (i & Hi & Ht). rewrite Hnew.
      rewrite overflow_count_app, overflow_count_stores, overflow_count_forced.
      rewrite timer_changes_count by by apply adjacent_grouped.
      rewrite decide_True; [lia|]. split; [|done].
      apply list_elem_of_lookup. exists i.
      rewrite motor_tims_lookup by done. by rewrite <- Ht.
    + intros i Hi. by apply zeroed_reading.
Qed.

(** C2: with motor slots [0 .. N-1] configured,
    [pwmCompleteOneshotMotorUpdate N] returns and the calls it has added to
    the hardware log are a block of force-overflow calls followed by the [N]
    stores of 0 to the motors' compare registers: every force-overflow call
    comes before every store to a compare register. *)
Theorem pwmCompleteOneshotMotorUpdate_overflows_before_zeroing N s :
  motors_configured s N →
  ∃ s' forced cleared,
    pwmCompleteOneshotMotorUpdate N s = Done tt s' ∧
    hw_log s' = hw_log s ++ forced ++ cleared ∧
    Forall (λ e, ∃ t, e = Call_timerForceOverflow t) forced ∧
    cleared = map (λ r, Store_ccr r 0) (motor_ccrs s 0 N) ∧
    length cleared = N ∧
    ∀ a b t r v,
      new_calls s s' !! a = Some (Call_timerForceOverflow t) →
      new_calls s s' !! b = Some (Store_ccr r v) →
      (a < b)%nat.
Proof.
  intros Hcfg.
  set (forced := map Call_timerForceOverflow
                   (timer_changes None (motor_tims s 0 N))).
  set (cleared := map (λ r, Store_ccr r 0) (motor_ccrs s 0 N)).
  assert (Hforced : Forall (λ e, ∃ t, e = Call_timerForceOverflow t) forced).
  { apply Forall_forall. intros e He.
    apply list_elem_of_fmap in He as (t & -> & _). by exists t. }
  assert (Hcleared : Forall (λ e, ∃ r, e = Store_ccr r 0) cleared).
  { apply Forall_forall. intros e He.
    apply list_elem_of_fmap in He as (r & -> & _). by exists r. }
  exists (zeroed (motor_ccrs s 0 N) (called forced s)), forced, cleared.
  split; [by apply pwmCompleteOneshotMotorUpdate_run|].
  assert (Hlog : hw_log (zeroed (motor_ccrs s 0 N) (called forced s))
                 = hw_log s ++ forced ++ cleared).
  { unfold zeroed, called. cbn. by rewrite <- app_assoc. }
  split; [done|]. split; [done|]. split; [done|]. split.
  - unfold cleared. rewrite length_map. apply motor_ccrs_length.
    intros i Hi. apply Hcfg. lia.
  - intros a b t r v Ha Hb. rewrite (new_calls_app _ _ _ Hlog) in Ha, Hb.
    destruct (decide (a < length forced)%nat) as [Hlt|Hge].
    + destruct (decide (b < length forced)%nat) as [Hb'|Hb']; [|lia].
      rewrite lookup_app_l in Hb by done.
      apply list_elem_of_lookup_2 in Hb.
      rewrite Forall_forall in Hforced.
      destruct (Hforced _ Hb) as [t' Ht']. done.
    + rewrite lookup_app_r in Ha by lia.
      apply list_elem_of_lookup_2 in Ha.
      rewrite Forall_forall in Hcleared.
      destruct (Hcleared _ Ha) as [r' Hr']. done.
Qed.

(** *** Shutdown *)

(** C7: when motor slots [0 .. count-1] are configured,
    [pwmShutdownPulsesForAllMotors count] returns with the compare register
    of every motor [0 .. count-1] reading 0, and it does the same stores
    whether [pwmMotorsEnabled] is true or false. *)
Theorem pwmShutdownPulsesForAllMotors_zeroes count s :
  motors_configured s count →
  ∃ s',
    pwmShutdownPulsesForAllMotors count s = Done tt s' ∧
    (∀ i, (i < count)%nat → motor_reading s' i = Some 0) ∧
    ∀ gate,
      pwmShutdownPulsesForAllMotors count (with_enabled gate s)
      = Done tt (with_enabled gate s').
Proof.
  intros Hcfg. eexists.
  split; [by apply pwmShutdownPulsesForAllMotors_run|]. split.
  - intros i Hi. by apply zeroed_reading.
  - intros gate.
    by rewrite (pwmShutdownPulsesForAllMotors_run count (with_enabled gate s)).
Qed.

(** *** Machine arithmetic *)

Lemma to_int_small x : - 2 ^ 31 ≤ x < 2 ^ 31 → to_int x = x.
Proof. intros Hx. unfold to_int. rewrite Z.mod_small; lia. Qed.

Lemma brushed_pulse_in_range P v :
  0 ≤ P < 2 ^ 16 → 1000 ≤ v ≤ 2000 →
  pulse_of Ptr_pwmWriteBrushed P v = (v - 1000) * P ÷ 1000 ∧
  0 ≤ (v - 1000) * P ÷ 1000 ≤ P.
Proof.
  intros HP Hv. unfold pulse_of, int_div, int_mul, int_sub.
  assert (Hprod : 0 ≤ (v - 1000) * P ≤ 1000 * P) by nia.
  assert (Hq : 0 ≤ (v - 1000) * P ÷ 1000 ≤ P).
  { rewrite Z.quot_div_nonneg by lia. split.
    - apply Z.div_pos; lia.
    - apply Z.div_le_upper_bound; lia. }
  rewrite (to_int_small (v - 1000)) by lia.
  rewrite (to_int_small ((v - 1000) * P)) by lia.
  rewrite to_int_small by lia. done.
Qed.

Lemma brushed_pulse_below_range P v :
  0 ≤ P < 2 ^ 16 → 0 ≤ v < 1000 →
  pulse_of Ptr_pwmWriteBrushed P v = (v - 1000) * P ÷ 1000 ∧
  (v - 1000) * P ÷ 1000 = - ((1000 - v) * P / 1000) ∧
  0 ≤ (1000 - v) * P / 1000 ≤ P.
Proof.
  intros HP Hv. unfold pulse_of, int_div, int_mul, int_sub.
  assert (Hprod : 0 ≤ (1000 - v) * P ≤ 1000 * P) by nia.
  assert (Hd : 0 ≤ (1000 - v) * P / 1000 ≤ P).
  { split; [apply Z.div_pos; lia|apply Z.div_le_upper_bound; lia]. }
  assert (Hq : (v - 1000) * P ÷ 1000 = - ((1000 - v) * P / 1000)).
  { replace ((v - 1000) * P) with (- ((1000 - v) * P)) by lia.
    rewrite Z.quot_opp_l by lia. by rewrite Z.quot_div_nonneg by lia. }
  rewrite (to_int_small (v - 1000)) by lia.
  rewrite (to_int_small ((v - 1000) * P)) by lia.
  rewrite to_int_small by lia. done.
Qed.

Lemma to_timCCR_negative q :
  16 ≤ ccr_bits → - 2 ^ 16 < q < 0 → to_timCCR q = 2 ^ ccr_bits + q.
Proof.
  intros Hw Hq. unfold to_timCCR.
  assert (Hpow : 2 ^ 16 ≤ 2 ^ ccr_bits) by (apply Z.pow_le_mono_r; lia).
  symmetry. apply (Z.mod_unique _ _ (-1)); lia.
Qed.

(** *** Motor writes *)

Lemma motor_port_slot s i port :
  motor_port s i = Some port → ∃ k, motors s !! i = Some (Some k).
Proof.
  unfold motor_port. destruct (motors s !! i) as [[k|]|]; [|done..]. eauto.
Qed.

Lemma pwmWriteMotor_writes s i v port r f :
  (i < MAX_MOTORS)%nat → motor_port s i = Some port →
  ccr port = Some r → pwmWritePtr port = Some f →
  pwmMotorsEnabled s = true →
  pwmWriteMotor i v s
  = Done tt (stored r (to_timCCR (pulse_of f (period port) v)) s).
Proof.
  intros Hi Hp Hr Hf Hen. destruct (motor_port_slot s i port Hp) as [k Hk].
  unfold pwmWriteMotor.
  rewrite (bind_done _ _ s (Some k) s) by by apply load_motor_slot.
  rewrite (bind_done _ _ s true s) by (unfold gets; by f_equal).
  rewrite !bool_decide_eq_true_2 by done. cbn [andb].
  rewrite (bind_done _ _ s port s) by by apply motor_deref_port.
  rewrite Hf. destruct f; cbn [call_pwmWritePtr pulse_of].
  - unfold pwmWriteBrushed.
    rewrite (bind_done _ _ s port s) by by apply motor_deref_port.
    by rewrite Hr.
  - unfold pwmWriteStandard.
    rewrite (bind_done _ _ s port s) by by apply motor_deref_port.
    by rewrite Hr.
Qed.

Lemma pwmWriteMotor_skips s i v m :
  motors s !! i = Some m →
  m = None ∨ (MAX_MOTORS ≤ i)%nat ∨ pwmMotorsEnabled s = false →
  pwmWriteMotor i v s = Done tt s.
Proof.
  intros Hm Hskip. unfold pwmWriteMotor.
  rewrite (bind_done _ _ s m s) by by apply load_motor_slot.
  rewrite (bind_done _ _ s (pwmMotorsEnabled s) s) by done.
  destruct Hskip as [->|[Hi|Hen]].
  - by rewrite bool_decide_eq_false_2 by (intros ?; done).
  - rewrite (bool_decide_eq_false_2 (i < MAX_MOTORS)%nat) by lia.
    by rewrite andb_false_r.
  - rewrite Hen. by rewrite andb_false_r.
Qed.


Lemma stored_motor_reading s i r x :
  motor_ccr s i = Some r → motor_reading (stored r x s) i = Some x.
Proof.
  intros Hr. unfold motor_reading.
  change (motor_ccr (stored r x s) i) with (motor_ccr s i).
  rewrite Hr. cbn. apply lookup_insert_eq.
Qed.

(** *** Servo writes *)

Lemma pwmWriteServo_writes s j v port r :
  (j < MAX_SERVOS)%nat → servo_port s j = Some port → ccr port = Some r →
  pwmWriteServo j v s = Done tt (stored r (to_timCCR v) s).
Proof.
  intros Hj Hp Hr. unfold servo_port in Hp.
  destruct (servos s !! j) as [[k|]|] eqn:Hk; [|done..].
  assert (Hload : load_servo j s = Done (Some k) s)
    by by apply load_servo_slot.
  unfold pwmWriteServo.
  rewrite (bind_done _ _ s (Some k) s) by done.
  rewrite !bool_decide_eq_true_2 by done. cbn [andb].
  rewrite (bind_done _ _ s (Some k) s) by done.
  rewrite (bind_done _ _ s port s) by by apply load_port_at.
  by rewrite Hr.
Qed.



Lemma stored_servo_reading s j port r x :
  servo_port s j = Some port → ccr port = Some r →
  servo_reading (stored r x s) j = Some x.
Proof.
  intros Hp Hr. unfold servo_reading.
  change (servo_port (stored r x s) j) with (servo_port s j).
  rewrite Hp, Hr. cbn. apply lookup_insert_eq.
Qed.

(** *** Brushed scaling *)

Section BrushedMotor.

(** Motor [i] of state [s] is bound to [port], which carries the brushed
    write function and the compare register [r]; the motors are enabled;
    the period is a [uint16_t] and [timCCR_t] is at least as wide. *)
Variables (s : state) (i : nat) (port : pwmOutputPort_t) (r : ccr_ref).
Hypothesis index_in_range : (i < MAX_MOTORS)%nat.
Hypothesis slot_bound : motor_port s i = Some port.
Hypothesis port_register : ccr port = Some r.
Hypothesis port_brushed : pwmWritePtr port = Some Ptr_pwmWriteBrushed.
Hypothesis gate_set : pwmMotorsEnabled s = true.
Hypothesis period_uint16 : 0 ≤ period port < 2 ^ 16.
Hypothesis ccr_wide : 16 ≤ ccr_bits.

Lemma brushed_write_run v :
  pwmWriteMotor i v s
  = Done tt
      (stored r (to_timCCR (pulse_of Ptr_pwmWriteBrushed (period port) v)) s).
Proof. by apply pwmWriteMotor_writes. Qed.

Lemma brushed_write_reading v :
  motor_write_reading s i v
  = Some (to_timCCR (pulse_of Ptr_pwmWriteBrushed (period port) v)).
Proof.
  unfold motor_write_reading. rewrite brushed_write_run.
  apply stored_motor_reading. unfold motor_ccr. by rewrite slot_bound.
Qed.

(** C3: for a motor [i] bound to a port with the brushed write function and
    period [P], with the motors enabled, [pwmWriteMotor i v] for every [v] in
    [1000, 2000] leaves the port's compare register reading
    [(v - 1000) * P ÷ 1000] (the quotient truncated toward zero), and the
    value so stored does not decrease when [v] grows within that range. *)
Theorem pwmWriteMotor_brushed_scaling :
  (∀ v, 1000 ≤ v ≤ 2000 →
     motor_write_reading s i v = Some ((v - 1000) * period port ÷ 1000) ∧
     ∃ s', pwmWriteMotor i v s = Done tt s' ∧
           ccr_regs s' !! r = Some ((v - 1000) * period port ÷ 1000)) ∧
  (∀ v1 v2, 1000 ≤ v1 → v1 ≤ v2 → v2 ≤ 2000 →
     ∃ x1 x2, motor_write_reading s i v1 = Some x1 ∧
              motor_write_reading s i v2 = Some x2 ∧ x1 ≤ x2).
Proof.
  assert (Hpulse : ∀ v, 1000 ≤ v ≤ 2000 →
    to_timCCR (pulse_of Ptr_pwmWriteBrushed (period port) v)
    = (v - 1000) * period port ÷ 1000).
  { intros v Hv.
    destruct (brushed_pulse_in_range (period port) v period_uint16 Hv)
      as [-> Hq].
    apply to_timCCR_small; [done|lia]. }
  split.
  - intros v Hv. split.
    + by rewrite brushed_write_reading, Hpulse.
    + eexists. split; [apply brushed_write_run|].
      rewrite Hpulse by done. cbn. apply lookup_insert_eq.
  - intros v1 v2 H1 H12 H2. eexists _, _.
    split; [rewrite brushed_write_reading, Hpulse by lia; done|].
    split; [rewrite brushed_write_reading, Hpulse by lia; done|].
    apply Z.quot_le_mono; [lia|].
    apply Z.mul_le_mono_nonneg_r; lia.
Qed.

(** C9 (amended): for a motor [i] bound to a port with the brushed write
    function and period [P], with the motors enabled, [pwmWriteMotor i v] for
    [0 <= v < 1000] does not clamp: it stores the quotient
    [(v - 1000) * P ÷ 1000], computed on a negative operand and truncated
    toward zero, converted to the register's type.  When
    [(1000 - v) * P >= 1000] the quotient is negative and the register reads
    [2^w + quotient], at least [2^w - P]; when [(1000 - v) * P < 1000] the
    quotient truncates to 0 and the register reads 0. *)
Theorem pwmWriteMotor_brushed_below_1000 v :
  0 ≤ v < 1000 →
  motor_write_reading s i v
    = Some (to_timCCR ((v - 1000) * period port ÷ 1000)) ∧
  (1000 ≤ (1000 - v) * period port →
     brushed_underrange_wraps s i v ∧
     ∃ x, motor_write_reading s i v = Some x ∧
          2 ^ ccr_bits - period port ≤ x < 2 ^ ccr_bits) ∧
  ((1000 - v) * period port < 1000 →
     (v - 1000) * period port ÷ 1000 = 0 ∧
     motor_write_reading s i v = Some 0).
Proof.
  intros Hv.
  destruct (brushed_pulse_below_range (period port) v period_uint16 Hv)
    as (Hpulse & Hq & Hd).
  pose proof (brushed_write_run v) as Hrun.
  pose proof (brushed_write_reading v) as Hread.
  rewrite Hpulse in Hrun, Hread.
  split; [done|]. split.
  - intros Hbig.
    assert (Hneg : 1 ≤ (1000 - v) * period port / 1000)
      by (apply Z.div_le_lower_bound; lia).
    assert (Hwrap : to_timCCR ((v - 1000) * period port ÷ 1000)
                    = 2 ^ ccr_bits + (v - 1000) * period port ÷ 1000)
      by (apply to_timCCR_negative; lia).
    split.
    + eexists _, port, _. split; [exact Hrun|]. split; [done|].
      split; [|split; [lia|done]].
      apply stored_motor_reading. unfold motor_ccr. by rewrite slot_bound.
    + eexists. split; [exact Hread|]. rewrite Hwrap. lia.
  - intros Hsmall.
    assert (Hz : (1000 - v) * period port / 1000 = 0)
      by (apply Z.div_small; nia).
    assert (Hq0 : (v - 1000) * period port ÷ 1000 = 0) by lia.
    split; [done|]. by rewrite Hread, Hq0, to_timCCR_0.
Qed.

End BrushedMotor.

(** *** The motor gate *)

(** C4: for a configured motor [i] and a configured servo [j] and every
    value [v]: after [pwmDisableMotors], [pwmWriteMotor i v] changes nothing,
    so the motor's compare register reads what it read before; after a
    following [pwmEnableMotors], [pwmWriteMotor i v] stores the pulse its
    write function computes from [v]; and [pwmWriteServo j v] stores [v] to
    the servo's compare register, with the same effect on the state, for
    either value of [pwmMotorsEnabled]. *)
Theorem motor_gate_frame s i j mport mr f sport sr v :
  (i < MAX_MOTORS)%nat → motor_port s i = Some mport →
  ccr mport = Some mr → pwmWritePtr mport = Some f →
  (j < MAX_SERVOS)%nat → servo_port s j = Some sport → ccr sport = Some sr →
  16 ≤ ccr_bits → 0 ≤ v < 2 ^ 16 →
  (∃ sd, pwmDisableMotors s = Done tt sd ∧
         pwmWriteMotor i v sd = Done tt sd ∧
         motor_reading sd i = motor_reading s i) ∧
  (∃ se s', (pwmDisableMotors;; pwmEnableMotors) s = Done tt se ∧
            pwmWriteMotor i v se = Done tt s' ∧
            motor_reading s' i
              = Some (to_timCCR (pulse_of f (period mport) v))) ∧
  (∀ gate, ∃ s',
     pwmWriteServo j v (with_enabled gate s) = Done tt s' ∧
     servo_reading s' j = Some v ∧
     s' = with_enabled gate (stored sr v s)).
Proof.
  intros Hi Hmp Hmr Hf Hj Hsp Hsr Hw Hv.
  destruct (motor_port_slot s i mport Hmp) as [k Hk].
  split; [|split].
  - exists (with_enabled false s). split; [done|]. split; [|done].
    apply (pwmWriteMotor_skips _ i v (Some k)); [done|]. by right; right.
  - exists (with_enabled true (with_enabled false s)). eexists.
    split; [done|]. split.
    + by apply (pwmWriteMotor_writes _ i v mport mr f).
    + apply stored_motor_reading. unfold motor_ccr.
      change (motor_port (with_enabled true (with_enabled false s)) i)
        with (motor_port s i).
      by rewrite Hmp.
  - intros gate. eexists. split.
    + by apply (pwmWriteServo_writes _ j v sport sr).
    + rewrite to_timCCR_small by done. split; [|done].
      by apply (stored_servo_reading _ j sport).
Qed.

(** *** Rate classification *)

(** C10: [isMotorBrushed] takes no state and is true exactly for a rate
    strictly above 500; it is false at 500 and true at 501. *)
Theorem isMotorBrushed_above_500 :
  (∀ motorPwmRate, isMotorBrushed motorPwmRate = true ↔ 500 < motorPwmRate) ∧
  isMotorBrushed 500 = false ∧ isMotorBrushed 501 = true.
Proof.
  split; [|done]. intros rate. unfold isMotorBrushed.
  apply bool_decide_eq_true.
Qed.

(** *** Per-tick operations return *)


(** *** The allocation cursor *)

Lemma keeps_count_ret {A} (a : A) : keeps_count (mret a).
Proof. intros s b s' E. cbv in E. by simplify_eq. Qed.

Lemma keeps_count_fault {A} : keeps_count (@fault A).
Proof. by intros s b s' E. Qed.

Lemma keeps_count_bind {A B} (m : M A) (k : A → M B) :
  keeps_count m → (∀ a, keeps_count (k a)) → keeps_count (m ≫= k).
Proof.
  intros Hm Hk s b s2 E. apply bind_inv in E as (a & s1 & E1 & E2).
  rewrite (Hk a _ _ _ E2). by apply (Hm _ _ _ E1).
Qed.

Lemma keeps_count_gets {A} (f : state → A) : keeps_count (gets f).
Proof. intros s b s' E. cbv in E. by simplify_eq. Qed.

Lemma keeps_count_load_motor i : keeps_count (load_motor i).
Proof.
  intros s b s'. unfold load_motor.
  destruct (motors s !! i); [|done]. intros E. by simplify_eq.
Qed.

Lemma keeps_count_load_servo j : keeps_count (load_servo j).
Proof.
  intros s b s'. unfold load_servo.
  destruct (servos s !! j); [|done]. intros E. by simplify_eq.
Qed.

Lemma keeps_count_store_motor i p : keeps_count (store_motor i p).
Proof.
  intros s b s'. unfold store_motor.
  destruct (decide _); [|done]. intros E. by simplify_eq.
Qed.

Lemma keeps_count_store_servo j p : keeps_count (store_servo j p).
Proof.
  intros s b s'. unfold store_servo.
  destruct (decide _); [|done]. intros E. by simplify_eq.
Qed.

Lemma keeps_count_load_port p : keeps_count (load_port p).
Proof.
  intros s b s'. unfold load_port. destruct p as [k|]; [|done].
  destruct (pwmOutputPorts s !! k); [|done]. intros E. by simplify_eq.
Qed.

Lemma keeps_count_update_port p f : keeps_count (update_port p f).
Proof.
  intros s b s'. unfold update_port. destruct p as [k|]; [|done].
  destruct (pwmOutputPorts s !! k); [|done]. intros E. by simplify_eq.
Qed.

Lemma keeps_count_store_ccr c v : keeps_count (store_ccr c v).
Proof.
  intros s b s'. unfold store_ccr. destruct c as [r|]; [|done].
  intros E. by simplify_eq.
Qed.

Lemma keeps_count_hal e : keeps_count (hal e).
Proof. intros s b s' E. cbv in E. by simplify_eq. Qed.

Lemma keeps_count_gate b : keeps_count (modify (with_enabled b)).
Proof. intros s a s' E. cbv in E. by simplify_eq. Qed.

Lemma keeps_count_for_index {A} first n (body : nat → A → M A) acc :
  (∀ i a, keeps_count (body i a)) → keeps_count (for_index first n body acc).
Proof.
  intros Hbody. revert first acc.
  induction n as [|n IH]; intros first acc; cbn [for_index].
  - apply keeps_count_ret.
  - apply keeps_count_bind; [apply Hbody|]. intros a. apply IH.
Qed.

Create HintDb pwm_count.
#[local] Hint Resolve keeps_count_ret keeps_count_fault keeps_count_gets
  keeps_count_load_motor keeps_count_load_servo keeps_count_store_motor
  keeps_count_store_servo keeps_count_load_port keeps_count_update_port
  keeps_count_store_ccr keeps_count_hal keeps_count_gate : pwm_count.

Ltac keeps_count :=
  repeat first
    [ progress intros
    | progress cbn beta
    | solve [auto with pwm_count]
    | apply keeps_count_bind
    | apply keeps_count_for_index
    | match goal with
      | |- keeps_count (match ?x with _ => _ end) => destruct x
      end ].

Lemma keeps_count_motor_deref i : keeps_count (motor_deref i).
Proof. unfold motor_deref. keeps_count. Qed.

#[local] Hint Resolve keeps_count_motor_deref : pwm_count.

Lemma keeps_count_pwmWriteMotor i v : keeps_count (pwmWriteMotor i v).
Proof.
  unfold pwmWriteMotor, call_pwmWritePtr, pwmWriteBrushed, pwmWriteStandard.
  keeps_count.
Qed.

Lemma keeps_count_pwmWriteServo j v : keeps_count (pwmWriteServo j v).
Proof. unfold pwmWriteServo. keeps_count. Qed.

Lemma keeps_count_pwmShutdownPulsesForAllMotors n :
  keeps_count (pwmShutdownPulsesForAllMotors n).
Proof. unfold pwmShutdownPulsesForAllMotors. keeps_count. Qed.

Lemma keeps_count_pwmCompleteOneshotMotorUpdate n :
  keeps_count (pwmCompleteOneshotMotorUpdate n).
Proof. unfold pwmCompleteOneshotMotorUpdate. keeps_count. Qed.

Lemma bumps_count_bind {A B} (m : M A) (k : A → M B) :
  bumps_count m → (∀ a, keeps_count (k a)) → bumps_count (m ≫= k).
Proof.
  intros Hm Hk s b s2 E. apply bind_inv in E as (a & s1 & E1 & E2).
  rewrite (Hk a _ _ _ E2). by apply (Hm _ _ _ E1).
Qed.

Lemma bumps_count_pwmOutConfig hw mhz period value :
  bumps_count (pwmOutConfig hw mhz period value).
Proof.
  intros s p s' E. unfold pwmOutConfig in E.
  apply bind_inv in E as (k & s1 & E1 & E).
  injection E1 as <- <-.
  apply bind_inv in E as ([] & s2 & E2 & E).
  injection E2 as <-.
  assert (Hrest : keeps_count
    (match timerFindTimerHandle (hw_tim hw) with
     | Some Handle =>
         hal (Call_configTimeBase (hw_tim hw) period mhz);;
         pwmGPIOConfig hw;;
         pwmOCConfig (hw_tim hw) (hw_channel hw) value;;
         (if hw_outputEnable hw
          then hal (Call_HAL_TIM_PWM_Start Handle (hw_channel hw))
          else hal (Call_HAL_TIM_PWM_Stop Handle (hw_channel hw)));;
         hal (Call_HAL_TIM_Base_Start Handle);;
         match hw_channel hw with
         | TIM_CHANNEL_1 =>
             update_port (Some (allocatedOutputPortCount s))
               (set_ccr (Some (hw_tim hw, CCR1)))
         | TIM_CHANNEL_2 =>
             update_port (Some (allocatedOutputPortCount s))
               (set_ccr (Some (hw_tim hw, CCR2)))
         | TIM_CHANNEL_3 =>
             update_port (Some (allocatedOutputPortCount s))
               (set_ccr (Some (hw_tim hw, CCR3)))
         | TIM_CHANNEL_4 =>
             update_port (Some (allocatedOutputPortCount s))
               (set_ccr (Some (hw_tim hw, CCR4)))
         | TIM_CHANNEL_ALL => mret tt
         end;;
         update_port (Some (allocatedOutputPortCount s)) (set_period period);;
         update_port (Some (allocatedOutputPortCount s))
           (set_tim (Some (hw_tim hw)));;
         mret (Some (allocatedOutputPortCount s))
     | None => mret (Some (allocatedOutputPortCount s))
     end)).
  { unfold pwmGPIOConfig, pwmOCConfig. keeps_count. }
  by rewrite (Hrest _ _ _ E).
Qed.

Lemma bumps_count_pwmBrushedMotorConfig hw i rate idle :
  bumps_count (pwmBrushedMotorConfig hw i rate idle).
Proof.
  unfold pwmBrushedMotorConfig. destruct (decide (rate = 0)); [by intros ???|].
  apply bumps_count_bind; [apply bumps_count_pwmOutConfig|]. keeps_count.
Qed.

Lemma bumps_count_pwmBrushlessMotorConfig hw i rate idle :
  bumps_count (pwmBrushlessMotorConfig hw i rate idle).
Proof.
  unfold pwmBrushlessMotorConfig. destruct (decide (rate = 0)); [by intros ???|].
  apply bumps_count_bind; [apply bumps_count_pwmOutConfig|]. keeps_count.
Qed.

Lemma bumps_count_pwmOneshotMotorConfig hw i :
  bumps_count (pwmOneshotMotorConfig hw i).
Proof.
  unfold pwmOneshotMotorConfig.
  apply bumps_count_bind; [apply bumps_count_pwmOutConfig|]. keeps_count.
Qed.

Lemma bumps_count_pwmServoConfig hw j rate centre :
  bumps_count (pwmServoConfig hw j rate centre).
Proof.
  unfold pwmServoConfig. destruct (decide (rate = 0)); [by intros ???|].
  apply bumps_count_bind; [apply bumps_count_pwmOutConfig|]. keeps_count.
Qed.


Lemma pwmOutConfig_unresolved hw mhz period value s :
  timerFindTimerHandle (hw_tim hw) = None →
  pwmOutConfig hw mhz period value s
  = Done (Some (allocatedOutputPortCount s))
      (with_count ((allocatedOutputPortCount s + 1) mod 256)%nat s).
Proof. intros Hh. unfold pwmOutConfig. by rewrite Hh. Qed.



(** *** What configuration establishes *)

Lemma pwmOutConfig_resolved hw mhz period value s h port0 reg :
  timerFindTimerHandle (hw_tim hw) = Some h →
  pwmOutputPorts s !! allocatedOutputPortCount s = Some port0 →
  channel_ccr (hw_channel hw) = Some reg →
  ∃ s',
    pwmOutConfig hw mhz period value s
    = Done (Some (allocatedOutputPortCount s)) s' ∧
    pwmOutputPorts s'
    = <[allocatedOutputPortCount s :=
          configured_port hw reg period (pwmWritePtr port0)]>
        (pwmOutputPorts s) ∧
    motors s' = motors s ∧ servos s' = servos s ∧
    pwmMotorsEnabled s' = pwmMotorsEnabled s ∧ ccr_regs s' = ccr_regs s.
Proof.
  intros Hh Hport0 Hch.
  assert (Hfree : (allocatedOutputPortCount s < length (pwmOutputPorts s))%nat)
    by by apply lookup_lt_Some in Hport0.
  unfold pwmOutConfig, pwmGPIOConfig, pwmOCConfig, hal, update_port,
    gets, modify, mbind, M_bind, bind, mret, M_ret, ret.
  rewrite Hh.
  destruct (hw_outputEnable hw), (hw_channel hw);
    cbn in Hch; simplify_eq;
    cbn -[Nat.modulo Nat.add]; rewrite Hport0; cbn -[Nat.modulo Nat.add];
    repeat (rewrite list_lookup_insert_eq by (rewrite ?length_insert; lia);
            cbn -[Nat.modulo Nat.add]);
    eexists; (split; [reflexivity|]); cbn -[Nat.modulo Nat.add];
    by rewrite !list_insert_insert_eq.
Qed.

Lemma bind_motor_slot i k f s port1 :
  (i < length (motors s))%nat → pwmOutputPorts s !! k = Some port1 →
  (store_motor i (Some k);;
   m ← load_motor i;
   update_port m (set_pwmWritePtr (Some f))) s
  = Done tt
      (with_ports (<[k := set_pwmWritePtr (Some f) port1]> (pwmOutputPorts s))
         (with_motors (<[i := Some k]> (motors s)) s)).
Proof.
  intros Hi Hk.
  rewrite (bind_done _ _ s tt (with_motors (<[i := Some k]> (motors s)) s))
    by (unfold store_motor; by rewrite decide_True).
  rewrite (bind_done _ _ _ (Some k) (with_motors (<[i := Some k]> (motors s)) s))
    by (apply load_motor_slot; cbn; by apply list_lookup_insert_eq).
  unfold update_port. cbn. by rewrite Hk.
Qed.

Section MotorConfiguration.

(** A descriptor whose timer has a handle and whose channel has a compare
    register, a free pool slot under the cursor, and a motor index inside
    [motors]. *)
Variables (hw : timerHardware_t) (h : tim_handle) (reg : ccr_id).
Variables (s : state) (port0 : pwmOutputPort_t) (motorIndex : nat).
Hypothesis timer_resolved : timerFindTimerHandle (hw_tim hw) = Some h.
Hypothesis channel_known : channel_ccr (hw_channel hw) = Some reg.
Hypothesis slot_free :
  pwmOutputPorts s !! allocatedOutputPortCount s = Some port0.
Hypothesis index_in_table : (motorIndex < length (motors s))%nat.

Lemma configure_motor_binds (mhz period value : Z) (f : pwmWriteFuncPtr) :
  ∃ s',
    (p ← pwmOutConfig hw mhz period value;
     store_motor motorIndex p;;
     m ← load_motor motorIndex;
     update_port m (set_pwmWritePtr (Some f))) s = Done tt s' ∧
    motor_port s' motorIndex = Some (configured_port hw reg period (Some f)) ∧
    pwmMotorsEnabled s' = pwmMotorsEnabled s.
Proof.
  destruct (pwmOutConfig_resolved hw mhz period value s h port0 reg)
    as (s1 & Hrun & Hports & Hmotors & _ & Hen & _); [done..|].
  assert (Hfree : (allocatedOutputPortCount s < length (pwmOutputPorts s))%nat)
    by by apply lookup_lt_Some in slot_free.
  eexists. split.
  - rewrite (bind_done _ _ _ _ _ Hrun).
    apply (bind_motor_slot _ _ _ _
             (configured_port hw reg period (pwmWritePtr port0))).
    + by rewrite Hmotors.
    + rewrite Hports. by apply list_lookup_insert_eq.
  - split; [|done]. unfold motor_port. cbn.
    rewrite list_lookup_insert_eq by by rewrite Hmotors.
    rewrite list_lookup_insert_eq; [done|].
    by rewrite Hports, length_insert.
Qed.

Lemma pwmBrushedMotorConfig_binds motorPwmRate idlePulse :
  motorPwmRate ≠ 0 →
  ∃ s',
    pwmBrushedMotorConfig hw motorIndex motorPwmRate idlePulse s = Done tt s' ∧
    motor_port s' motorIndex
    = Some (configured_port hw reg
              (to_uint16 (to_uint32 (int_mul PWM_BRUSHED_TIMER_MHZ 1000000)
                          / motorPwmRate))
              (Some Ptr_pwmWriteBrushed)) ∧
    pwmMotorsEnabled s' = pwmMotorsEnabled s.
Proof.
  intros Hrate. unfold pwmBrushedMotorConfig.
  rewrite decide_False by done. apply configure_motor_binds.
Qed.

Lemma pwmBrushlessMotorConfig_binds motorPwmRate idlePulse :
  motorPwmRate ≠ 0 →
  ∃ s',
    pwmBrushlessMotorConfig hw motorIndex motorPwmRate idlePulse s
    = Done tt s' ∧
    motor_port s' motorIndex
    = Some (configured_port hw reg
              (to_uint16 (to_uint32 (int_mul PWM_TIMER_MHZ 1000000)
                          / motorPwmRate))
              (Some Ptr_pwmWriteStandard)) ∧
    pwmMotorsEnabled s' = pwmMotorsEnabled s.
Proof.
  intros Hrate. unfold pwmBrushlessMotorConfig.
  rewrite decide_False by done. apply configure_motor_binds.
Qed.

Lemma pwmOneshotMotorConfig_binds :
  ∃ s',
    pwmOneshotMotorConfig hw motorIndex s = Done tt s' ∧
    motor_port s' motorIndex
    = Some (configured_port hw reg 65535 (Some Ptr_pwmWriteStandard)) ∧
    pwmMotorsEnabled s' = pwmMotorsEnabled s.
Proof. unfold pwmOneshotMotorConfig. apply configure_motor_binds. Qed.

End MotorConfiguration.

(** *** Checking a concrete state *)

Lemma motors_configured_check_sound s N :
  motors_configured_check s N = true → motors_configured s N.
Proof.
  unfold motors_configured_check. rewrite forallb_forall.
  intros Hall i Hi. apply Hall. apply in_seq. lia.
Qed.



End Properties.

(** ** Further properties of the driver *)

Section Extensions.
Context `{board : Platform}.

(** *** Per-tick calls leave the tables alone *)

Lemma same_tables_refl s : same_tables s s.
Proof. by repeat split. Qed.

Lemma same_tables_trans s1 s2 s3 :
  same_tables s1 s2 → same_tables s2 s3 → same_tables s1 s3.
Proof.
  intros (? & ? & ? & ? & ?) (? & ? & ? & ? & ?).
  repeat split; congruence.
Qed.

Lemma keeps_tables_ret {A} (a : A) : keeps_tables (mret a).
Proof. intros s b s' E. cbv in E. simplify_eq. apply same_tables_refl. Qed.

Lemma keeps_tables_fault {A} : keeps_tables (@fault A).
Proof. by intros s b s' E. Qed.

Lemma keeps_tables_bind {A B} (m : M A) (k : A → M B) :
  keeps_tables m → (∀ a, keeps_tables (k a)) → keeps_tables (m ≫= k).
Proof.
  intros Hm Hk s b s2 E. apply bind_inv in E as (a & s1 & E1 & E2).
  eapply same_tables_trans; [by eapply Hm|by eapply Hk].
Qed.

Lemma keeps_tables_gets {A} (f : state → A) : keeps_tables (gets f).
Proof. intros s b s' E. cbv in E. simplify_eq. apply same_tables_refl. Qed.

Lemma keeps_tables_load_motor i : keeps_tables (load_motor i).
Proof.
  intros s b s'. unfold load_motor.
  destruct (motors s !! i); [|done]. intros E. simplify_eq.
  apply same_tables_refl.
Qed.

Lemma keeps_tables_load_servo j : keeps_tables (load_servo j).
Proof.
  intros s b s'. unfold load_servo.
  destruct (servos s !! j); [|done]. intros E. simplify_eq.
  apply same_tables_refl.
Qed.

Lemma keeps_tables_load_port p : keeps_tables (load_port p).
Proof.
  intros s b s'. unfold load_port. destruct p as [k|]; [|done].
  destruct (pwmOutputPorts s !! k); [|done]. intros E. simplify_eq.
  apply same_tables_refl.
Qed.

Lemma keeps_tables_store_ccr c v : keeps_tables (store_ccr c v).
Proof.
  intros s b s'. unfold store_ccr. destruct c as [r|]; [|done].
  intros E. simplify_eq. by repeat split.
Qed.

Lemma keeps_tables_hal e : keeps_tables (hal e).
Proof. intros s b s' E. cbv in E. simplify_eq. by repeat split. Qed.

Lemma keeps_tables_for_index {A} first n (body : nat → A → M A) acc :
  (∀ i a, keeps_tables (body i a)) →
  keeps_tables (for_index first n body acc).
Proof.
  intros Hbody. revert first acc.
  induction n as [|n IH]; intros first acc; cbn [for_index].
  - apply keeps_tables_ret.
  - apply keeps_tables_bind; [apply Hbody|]. intros a. apply IH.
Qed.

Create HintDb pwm_tables.
#[local] Hint Resolve keeps_tables_ret keeps_tables_fault keeps_tables_gets
  keeps_tables_load_motor keeps_tables_load_servo keeps_tables_load_port
  keeps_tables_store_ccr keeps_tables_hal : pwm_tables.

Ltac keeps_tables :=
  repeat first
    [ progress intros
    | progress cbn beta
    | solve [auto with pwm_tables]
    | apply keeps_tables_bind
    | apply keeps_tables_for_index
    | match goal with
      | |- keeps_tables (match ?x with _ => _ end) => destruct x
      end ].

Lemma keeps_tables_motor_deref i : keeps_tables (motor_deref i).
Proof. unfold motor_deref. keeps_tables. Qed.

#[local] Hint Resolve keeps_tables_motor_deref : pwm_tables.

Lemma keeps_tables_pwmWriteMotor i v : keeps_tables (pwmWriteMotor i v).
Proof.
  unfold pwmWriteMotor, call_pwmWritePtr, pwmWriteBrushed, pwmWriteStandard.
  keeps_tables.
Qed.

Lemma keeps_tables_pwmWriteServo j v : keeps_tables (pwmWriteServo j v).
Proof. unfold pwmWriteServo. keeps_tables. Qed.

Lemma keeps_tables_pwmShutdownPulsesForAllMotors n :
  keeps_tables (pwmShutdownPulsesForAllMotors n).
Proof. unfold pwmShutdownPulsesForAllMotors. keeps_tables. Qed.

Lemma keeps_tables_pwmCompleteOneshotMotorUpdate n :
  keeps_tables (pwmCompleteOneshotMotorUpdate n).
Proof. unfold pwmCompleteOneshotMotorUpdate. keeps_tables. Qed.

(** X1: whatever their arguments, [pwmWriteMotor], [pwmWriteServo],
    [pwmShutdownPulsesForAllMotors] and [pwmCompleteOneshotMotorUpdate],
    when they return, have changed neither the port pool (so no port's
    register, timer, period or write function), nor [motors], nor [servos],
    nor [allocatedOutputPortCount], nor [pwmMotorsEnabled]: a per-tick call
    acts on compare registers and timers only. *)
Theorem per_tick_calls_keep_tables index value motorCount :
  keeps_tables (pwmWriteMotor index value) ∧
  keeps_tables (pwmWriteServo index value) ∧
  keeps_tables (pwmShutdownPulsesForAllMotors motorCount) ∧
  keeps_tables (pwmCompleteOneshotMotorUpdate motorCount).
Proof.
  split; [|split; [|split]].
  - apply keeps_tables_pwmWriteMotor.
  - apply keeps_tables_pwmWriteServo.
  - apply keeps_tables_pwmShutdownPulsesForAllMotors.
  - apply keeps_tables_pwmCompleteOneshotMotorUpdate.
Qed.

(** *** When the loops over the motor table return *)

Lemma motor_deref_exact s i :
  motor_deref i s
  = match motor_port s i with Some port => Done port s | None => Fault end.
Proof.
  destruct (motor_port s i) as [port|] eqn:Hp.
  - by apply motor_deref_port.
  - by apply motor_deref_unbound.
Qed.

Lemma motor_ccr_port s i r :
  motor_ccr s i = Some r →
  ∃ port, motor_port s i = Some port ∧ ccr port = Some r.
Proof.
  unfold motor_ccr. destruct (motor_port s i) as [port|]; [|done]. eauto.
Qed.

Lemma zero_body_registered s i r :
  motor_ccr s i = Some r →
  (port ← motor_deref i; store_ccr (ccr port) 0) s = Done tt (stored r 0 s).
Proof.
  intros Hr. destruct (motor_ccr_port s i r Hr) as (port & Hp & Hc).
  rewrite (bind_done _ _ s port s) by by apply motor_deref_port.
  by rewrite Hc, store_ccr_bound, to_timCCR_0.
Qed.

Lemma zero_body_unregistered s i :
  motor_ccr s i = None →
  (port ← motor_deref i; store_ccr (ccr port) 0) s = Fault.
Proof.
  intros Hr. unfold motor_ccr in Hr.
  destruct (motor_port s i) as [port|] eqn:Hp.
  - rewrite (bind_done _ _ s port s) by by apply motor_deref_port.
    by rewrite Hr.
  - apply bind_fault. by apply motor_deref_unbound.
Qed.

Lemma zero_loop_registered first n s :
  (∀ i, (first ≤ i < first + n)%nat → is_Some (motor_ccr s i)) →
  for_index first n
    (λ index _, port ← motor_deref index; store_ccr (ccr port) 0) tt s
  = Done tt (zeroed (motor_ccrs s first n) s).
Proof.
  revert first s. induction n as [|n IH]; intros first s Hreg.
  - cbn. by rewrite zeroed_nil.
  - destruct (Hreg first) as [r Hr]; [lia|].
    cbn [for_index].
    rewrite (bind_done _ _ s tt (stored r 0 s))
      by by apply zero_body_registered.
    rewrite IH.
    + rewrite (motor_ccrs_step s first n r) by done.
      f_equal. apply zeroed_step.
    + intros i Hi. apply (Hreg i). lia.
Qed.

Lemma zero_loop_unregistered first n s i :
  (first ≤ i < first + n)%nat → motor_ccr s i = None →
  for_index first n
    (λ index _, port ← motor_deref index; store_ccr (ccr port) 0) tt s
  = Fault.
Proof.
  revert first s. induction n as [|n IH]; intros first s Hi Hnone; [lia|].
  cbn [for_index].
  destruct (motor_ccr s first) as [r|] eqn:Hr.
  - rewrite (bind_done _ _ s tt (stored r 0 s))
      by by apply zero_body_registered.
    apply IH; [|done].
    destruct (decide (i = first)) as [->|Hne]; [congruence|lia].
  - apply bind_fault. by apply zero_body_unregistered.
Qed.

Lemma scan_loop_bound first n last s :
  (∀ i, (first ≤ i < first + n)%nat → is_Some (motor_port s i)) →
  ∃ last',
    for_index first n
      (λ index lastTimerPtr,
         port ← motor_deref index;
         if decide (tim port ≠ lastTimerPtr)
         then port' ← motor_deref index;
              port'' ← motor_deref index;
              hal (Call_timerForceOverflow (tim port''));;
              mret (tim port')
         else mret lastTimerPtr)
      last s
    = Done last'
        (called (map Call_timerForceOverflow
                   (timer_changes last (motor_tims s first n))) s).
Proof.
  revert first last s. induction n as [|n IH]; intros first last s Hb.
  - exists last. cbn. by rewrite called_nil.
  - destruct (Hb first) as [port Hp]; [lia|].
    assert (Htim : motor_tim s first = tim port)
      by (unfold motor_tim; by rewrite Hp).
    cbn [for_index]. unfold motor_tims. cbn [seq map timer_changes].
    rewrite Htim.
    destruct (decide (tim port ≠ last)) as [Hne|Heq].
    + destruct (IH (S first) (tim port)
                  (called [Call_timerForceOverflow (tim port)] s))
        as [last' Hrun]; [intros i Hi; apply (Hb i); lia|].
      exists last'.
      rewrite (bind_done _ _ s (tim port)
                 (called [Call_timerForceOverflow (tim port)] s)).
      * rewrite Hrun. f_equal. apply called_step.
      * rewrite (bind_done _ _ s port s); [|by apply motor_deref_port].
        rewrite decide_True by done.
        rewrite (bind_done _ _ s port s); [|by apply motor_deref_port].
        by rewrite (bind_done _ _ s port s); [|by apply motor_deref_port].
    + destruct (IH (S first) last s) as [last' Hrun];
        [intros i Hi; apply (Hb i); lia|].
      exists last'.
      rewrite (bind_done _ _ s last s); [done|].
      rewrite (bind_done _ _ s port s); [|by apply motor_deref_port].
      by rewrite decide_False by done.
Qed.

Lemma scan_loop_unbound first n last s i :
  (first ≤ i < first + n)%nat → motor_port s i = None →
  for_index first n
    (λ index lastTimerPtr,
       port ← motor_deref index;
       if decide (tim port ≠ lastTimerPtr)
       then port' ← motor_deref index;
            port'' ← motor_deref index;
            hal (Call_timerForceOverflow (tim port''));;
            mret (tim port')
       else mret lastTimerPtr)
    last s
  = Fault.
Proof.
  revert first last s. induction n as [|n IH]; intros first last s Hi Hnone;
    [lia|].
  cbn [for_index].
  destruct (motor_port s first) as [port|] eqn:Hp.
  - assert (Hne : i ≠ first) by congruence.
    destruct (scan_loop_bound first 1 last s) as [last' Hone].
    { intros j Hj. replace j with first by lia. by rewrite Hp. }
    cbn [for_index] in Hone.
    apply bind_inv in Hone as (a & s1 & Hbody & Hret).
    rewrite (bind_done _ _ _ _ _ Hbody).
    cbv [mret M_ret ret] in Hret. simplify_eq.
    apply IH; [lia|done].
  - apply bind_fault, bind_fault. by apply motor_deref_unbound.
Qed.

Lemma registered_bound s N :
  motors_registered s N → ∀ i, (i < N)%nat → is_Some (motor_port s i).
Proof.
  intros Hreg i Hi. destruct (Hreg i Hi) as [r Hr].
  destruct (motor_ccr_port s i r Hr) as (port & Hp & _). by exists port.
Qed.

Lemma pwmShutdownPulsesForAllMotors_registered N s :
  motors_registered s N →
  pwmShutdownPulsesForAllMotors N s = Done tt (zeroed (motor_ccrs s 0 N) s).
Proof.
  intros Hreg. apply (zero_loop_registered 0 N). intros i Hi. apply Hreg. lia.
Qed.

Lemma pwmShutdownPulsesForAllMotors_unregistered N s i :
  (i < N)%nat → motor_ccr s i = None →
  pwmShutdownPulsesForAllMotors N s = Fault.
Proof. intros Hi Hnone. apply (zero_loop_unregistered 0 N s i); [lia|done]. Qed.

Lemma pwmCompleteOneshotMotorUpdate_registered N s :
  motors_registered s N →
  pwmCompleteOneshotMotorUpdate N s
  = Done tt
      (zeroed (motor_ccrs s 0 N)
         (called (map Call_timerForceOverflow
                    (timer_changes None (motor_tims s 0 N))) s)).
Proof.
  intros Hreg. unfold pwmCompleteOneshotMotorUpdate.
  destruct (scan_loop_bound 0 N None s) as [last' Hscan].
  { intros i Hi. apply (registered_bound s N Hreg). lia. }
  rewrite (bind_done _ _ _ _ _ Hscan).
  rewrite (zero_loop_registered 0 N); [done|].
  intros i Hi. apply (Hreg i). lia.
Qed.

Lemma pwmCompleteOneshotMotorUpdate_unregistered N s i :
  (i < N)%nat → motor_ccr s i = None →
  pwmCompleteOneshotMotorUpdate N s = Fault.
Proof.
  intros Hi Hnone. unfold pwmCompleteOneshotMotorUpdate.
  destruct (decide (Forall (λ j, is_Some (motor_port s j)) (seq 0 N)))
    as [Hb|Hnb].
  - rewrite Forall_forall in Hb.
    destruct (scan_loop_bound 0 N None s) as [last' Hscan].
    { intros j Hj. apply Hb, elem_of_seq. lia. }
    rewrite (bind_done _ _ _ _ _ Hscan).
    apply (zero_loop_unregistered 0 N _ i); [lia|done].
  - apply bind_fault.
    apply not_Forall_Exists in Hnb; [|apply _].
    apply Exists_exists in Hnb as (j & Hj & Hnone').
    apply elem_of_seq in Hj.
    apply (scan_loop_unbound 0 N None s j); [lia|].
    cbn in Hnone'. destruct (motor_port s j); [|done].
    by destruct Hnone'.
Qed.

Lemma zeroing_other (rs : list ccr_ref) (m : gmap ccr_ref Z) r :
  r ∉ rs → foldl (λ m r, <[r := 0]> m) m rs !! r = m !! r.
Proof.
  revert m. induction rs as [|a rs IH]; intros m Hnin; [done|].
  apply not_elem_of_cons in Hnin as [Hne Hnin].
  cbn [foldl]. rewrite IH by done. by rewrite lookup_insert_ne.
Qed.

Lemma motor_ccrs_listed_inv s N r :
  r ∈ motor_ccrs s 0 N → ∃ i, (i < N)%nat ∧ motor_ccr s i = Some r.
Proof.
  unfold motor_ccrs. intros Hin.
  apply list_elem_of_omap in Hin as (i & Hi & Hr).
  apply elem_of_seq in Hi. exists i. split; [lia|done].
Qed.

Lemma motor_ccrs_registered_length s N :
  motors_registered s N → length (motor_ccrs s 0 N) = N.
Proof.
  intros Hreg. assert (Hgen : ∀ n first,
    (∀ i, (first ≤ i < first + n)%nat → is_Some (motor_ccr s i)) →
    length (motor_ccrs s first n) = n).
  { induction n as [|n IH]; intros first Hr; [done|].
    destruct (Hr first) as [r Hfirst]; [lia|].
    rewrite (motor_ccrs_step _ _ _ r) by done. cbn [length]. f_equal.
    apply IH. intros i Hi. apply Hr. lia. }
  apply Hgen. intros i Hi. apply Hreg. lia.
Qed.

Lemma zeroed_reading_registered s s0 N i :
  motors s0 = motors s → pwmOutputPorts s0 = pwmOutputPorts s →
  motors_registered s N → (i < N)%nat →
  motor_reading (zeroed (motor_ccrs s 0 N) s0) i = Some 0.
Proof.
  intros Hm Hp Hreg Hi. destruct (Hreg i Hi) as [r Hr].
  assert (Hsame : motor_ccr (zeroed (motor_ccrs s 0 N) s0) i = motor_ccr s i).
  { unfold motor_ccr, motor_port. cbn. by rewrite Hm, Hp. }
  unfold motor_reading. rewrite Hsame, Hr. cbn.
  apply zeroing_zeroes. by apply (motor_ccr_listed s N i).
Qed.

Lemma zeroed_other_register s s0 N r :
  (∀ i, (i < N)%nat → motor_ccr s i ≠ Some r) →
  ccr_regs (zeroed (motor_ccrs s 0 N) s0) !! r = ccr_regs s0 !! r.
Proof.
  intros Hother. cbn. apply zeroing_other. intros Hin.
  apply motor_ccrs_listed_inv in Hin as (i & Hi & Hr). by apply (Hother i).
Qed.

(** X2: [pwmShutdownPulsesForAllMotors count] returns exactly when every
    motor slot below [count] is bound to a port that has a compare register
    (an unbound slot or a port without register is a null dereference).
    When it returns, the motors below [count] read 0, the [count] stores of
    0 are all it asked of the hardware, and the compare registers that belong
    to none of those motors hold what they held. *)
Theorem pwmShutdownPulsesForAllMotors_returns_iff count s :
  (succeeds (pwmShutdownPulsesForAllMotors count s)
   ↔ motors_registered s count) ∧
  ∀ s', pwmShutdownPulsesForAllMotors count s = Done tt s' →
    (∀ i, (i < count)%nat → motor_reading s' i = Some 0) ∧
    new_calls s s' = map (λ r, Store_ccr r 0) (motor_ccrs s 0 count) ∧
    length (new_calls s s') = count ∧
    ∀ r, (∀ i, (i < count)%nat → motor_ccr s i ≠ Some r) →
         ccr_regs s' !! r = ccr_regs s !! r.
Proof.
  assert (Hret : ∀ a s', pwmShutdownPulsesForAllMotors count s = Done a s' →
                   motors_registered s count).
  { intros a s' Hrun i Hi. destruct (motor_ccr s i) as [r|] eqn:Hr; [by eexists|].
    by rewrite (pwmShutdownPulsesForAllMotors_unregistered count s i) in Hrun. }
  split.
  - split.
    + intros (a & s' & Hrun). by apply (Hret a s').
    + intros Hreg. eexists _, _.
      by apply pwmShutdownPulsesForAllMotors_registered.
  - intros s' Hrun. pose proof (Hret _ _ Hrun) as Hreg.
    rewrite (pwmShutdownPulsesForAllMotors_registered _ _ Hreg) in Hrun.
    injection Hrun as <-.
    assert (Hnew : new_calls s (zeroed (motor_ccrs s 0 count) s)
                   = map (λ r, Store_ccr r 0) (motor_ccrs s 0 count))
      by by apply new_calls_app.
    split; [intros i Hi; by apply zeroed_reading_registered|].
    split; [done|]. split.
    + by rewrite Hnew, length_map, motor_ccrs_registered_length.
    + intros r Hother. by apply zeroed_other_register.
Qed.

(** X3: [pwmCompleteOneshotMotorUpdate N] returns exactly when every motor
    slot below [N] is bound to a port that has a compare register.  It never
    reads [pwmMotorsEnabled]: with the motors disabled it forces the same
    overflows and zeroes the same registers.  When it returns, the compare
    registers that belong to none of the [N] motors hold what they held. *)
Theorem pwmCompleteOneshotMotorUpdate_returns_iff N s :
  (succeeds (pwmCompleteOneshotMotorUpdate N s) ↔ motors_registered s N) ∧
  ∀ s', pwmCompleteOneshotMotorUpdate N s = Done tt s' →
    (∀ gate,
       pwmCompleteOneshotMotorUpdate N (with_enabled gate s)
       = Done tt (with_enabled gate s')) ∧
    ∀ r, (∀ i, (i < N)%nat → motor_ccr s i ≠ Some r) →
         ccr_regs s' !! r = ccr_regs s !! r.
Proof.
  assert (Hret : ∀ a s', pwmCompleteOneshotMotorUpdate N s = Done a s' →
                   motors_registered s N).
  { intros a s' Hrun i Hi. destruct (motor_ccr s i) as [r|] eqn:Hr; [by eexists|].
    by rewrite (pwmCompleteOneshotMotorUpdate_unregistered N s i) in Hrun. }
  split.
  - split.
    + intros (a & s' & Hrun). by apply (Hret a s').
    + intros Hreg. eexists _, _.
      by apply pwmCompleteOneshotMotorUpdate_registered.
  - intros s' Hrun. pose proof (Hret _ _ Hrun) as Hreg.
    rewrite (pwmCompleteOneshotMotorUpdate_registered _ _ Hreg) in Hrun.
    injection Hrun as <-. split.
    + intros gate.
      by rewrite (pwmCompleteOneshotMotorUpdate_registered N
                    (with_enabled gate s)).
    + intros r Hother.
      by rewrite (zeroed_other_register s _ N r Hother).
Qed.

(** *** Which timers a oneshot cycle forces, whatever the motor order *)

Lemma timer_changes_sub last ts t :
  t ∈ timer_changes last ts → t ∈ ts.
Proof.
  revert last. induction ts as [|x ts IH]; intros last; [done|].
  cbn [timer_changes]. destruct (decide (x ≠ last)).
  - intros Hin. apply elem_of_cons in Hin as [->|Hin].
    + apply elem_of_cons. by left.
    + apply elem_of_cons. right. by apply (IH x).
  - intros Hin. apply elem_of_cons. right. by apply (IH last).
Qed.

Lemma timer_changes_covers last ts t :
  t ∈ ts → t ≠ last → t ∈ timer_changes last ts.
Proof.
  revert last. induction ts as [|x ts IH]; intros last Hin Hne.
  - by apply elem_of_nil in Hin.
  - cbn [timer_changes]. destruct (decide (x ≠ last)) as [Hx|Hx].
    + destruct (decide (t = x)) as [->|Htx]; [apply elem_of_cons; by left|].
      apply elem_of_cons. right. apply IH; [|done].
      apply elem_of_cons in Hin as [?|?]; done.
    + apply dec_stable in Hx. subst x. apply IH; [|done].
      apply elem_of_cons in Hin as [?|?]; done.
Qed.

Lemma timer_changes_length last ts :
  (length (timer_changes last ts) ≤ length ts)%nat.
Proof.
  revert last. induction ts as [|x ts IH]; intros last; [done|].
  cbn [timer_changes]. destruct (decide (x ≠ last)); cbn [length].
  - specialize (IH x). lia.
  - specialize (IH last). lia.
Qed.

Lemma timer_changes_head last ts t rest :
  timer_changes last ts = t :: rest → t ≠ last.
Proof.
  revert last. induction ts as [|x ts IH]; intros last; [done|].
  cbn [timer_changes]. destruct (decide (x ≠ last)) as [Hx|Hx].
  - intros E. by simplify_eq.
  - apply IH.
Qed.

Lemma timer_changes_alternate last ts k a b :
  timer_changes last ts !! k = Some a →
  timer_changes last ts !! S k = Some b → a ≠ b.
Proof.
  revert last k. induction ts as [|x ts IH]; intros last k; [done|].
  cbn [timer_changes]. destruct (decide (x ≠ last)) as [Hx|Hx].
  - destruct k as [|k].
    + cbn. intros Ha Hb. simplify_eq.
      destruct (timer_changes a ts) as [|y rest] eqn:E; [done|].
      cbn in Hb. simplify_eq.
      intros ->. by apply (timer_changes_head _ _ _ _ E).
    + cbn. apply IH.
  - apply IH.
Qed.

(** X4: with motor slots [0 .. N-1] configured, in whatever order the motors
    share timers, one oneshot cycle forces the timer of every one of the [N]
    motors at least once, forces no timer that none of them is bound to,
    makes at most [N] force-overflow calls, and never forces the same timer
    twice in a row. *)
Theorem pwmCompleteOneshotMotorUpdate_forced_timers N s :
  motors_configured s N →
  ∃ s' forced,
    pwmCompleteOneshotMotorUpdate N s = Done tt s' ∧
    new_calls s s'
    = map Call_timerForceOverflow forced
      ++ map (λ r, Store_ccr r 0) (motor_ccrs s 0 N) ∧
    (∀ i t, (i < N)%nat → motor_tim s i = Some t →
       (1 ≤ overflow_count t (new_calls s s'))%nat) ∧
    (∀ t, t ∈ forced → ∃ i, (i < N)%nat ∧ motor_tim s i = t) ∧
    (length forced ≤ N)%nat ∧
    (∀ k a b, forced !! k = Some a → forced !! S k = Some b → a ≠ b).
Proof.
  intros Hcfg. eexists _, (timer_changes None (motor_tims s 0 N)).
  split; [by apply pwmCompleteOneshotMotorUpdate_run|].
  assert (Hnew :
    new_calls s
      (zeroed (motor_ccrs s 0 N)
         (called (map Call_timerForceOverflow
                    (timer_changes None (motor_tims s 0 N))) s))
    = map Call_timerForceOverflow (timer_changes None (motor_tims s 0 N))
      ++ map (λ r, Store_ccr r 0) (motor_ccrs s 0 N)).
  { apply new_calls_app. unfold zeroed, called. cbn. by rewrite <- app_assoc. }
  split; [done|]. split; [|split; [|split]].
  - intros i t Hi Ht. rewrite Hnew.
    rewrite overflow_count_app, overflow_count_stores, overflow_count_forced.
    assert (Hin : Some t ∈ timer_changes None (motor_tims s 0 N)).
    { apply timer_changes_covers; [|done].
      apply list_elem_of_lookup. exists i.
      rewrite motor_tims_lookup by done. by rewrite <- Ht. }
    assert (Hf : Some t ∈ filter (λ x, x = Some t)
                   (timer_changes None (motor_tims s 0 N)))
      by by apply list_elem_of_filter.
    destruct (filter _ _) as [|y l]; [by apply elem_of_nil in Hf|].
    cbn [length]. lia.
  - intros t Hin. apply timer_changes_sub in Hin.
    apply list_elem_of_lookup in Hin as [i Hi].
    apply motor_tims_lookup_inv in Hi as [Hi ->]. by exists i.
  - etrans; [apply timer_changes_length|].
    unfold motor_tims. by rewrite length_map, length_seq.
  - apply timer_changes_alternate.
Qed.

(** *** What an allocation does *)

Lemma pwmOutConfig_exhausted hw mhz period value s h :
  timerFindTimerHandle (hw_tim hw) = Some h →
  pwmOutputPorts s !! allocatedOutputPortCount s = None →
  pwmOutConfig hw mhz period value s = Fault.
Proof.
  intros Hh Hnone.
  unfold pwmOutConfig, pwmGPIOConfig, pwmOCConfig, hal, update_port,
    gets, modify, mbind, M_bind, bind, mret, M_ret, ret.
  rewrite Hh.
  destruct (hw_outputEnable hw), (hw_channel hw);
    cbn -[Nat.modulo Nat.add]; by rewrite Hnone.
Qed.

Lemma pwmOutConfig_allocates hw mhz period value s port0 :
  pwmOutputPorts s !! allocatedOutputPortCount s = Some port0 →
  ∃ s',
    pwmOutConfig hw mhz period value s
    = Done (Some (allocatedOutputPortCount s)) s' ∧
    allocation_step s s' (allocated_port hw period port0)
      (allocated_calls hw mhz period value) ∧
    motors s' = motors s ∧ servos s' = servos s.
Proof.
  intros Hport0.
  assert (Hfree : (allocatedOutputPortCount s < length (pwmOutputPorts s))%nat)
    by by apply lookup_lt_Some in Hport0.
  unfold allocation_step, allocated_port, allocated_calls,
    pwmOutConfig_calls, pwmOutConfig_port.
  unfold pwmOutConfig, pwmGPIOConfig, pwmOCConfig, hal, update_port,
    gets, modify, mbind, M_bind, bind, mret, M_ret, ret.
  destruct (timerFindTimerHandle (hw_tim hw)) as [h|].
  - destruct (hw_outputEnable hw), (hw_channel hw);
      cbn -[Nat.modulo Nat.add]; rewrite Hport0; cbn -[Nat.modulo Nat.add];
      repeat (rewrite list_lookup_insert_eq by (rewrite ?length_insert; lia);
              cbn -[Nat.modulo Nat.add]);
      eexists; (split; [reflexivity|]); cbn -[Nat.modulo Nat.add];
      rewrite ?list_insert_insert_eq, <- ?app_assoc; by destruct port0.
  - eexists. split; [reflexivity|]. cbn -[Nat.modulo Nat.add].
    rewrite app_nil_r. by rewrite list_insert_id.
Qed.

(** X5: for a timer that has a handle and a cursor inside the pool,
    [pwmOutConfig] asks the hardware, in this order and nothing else, for the
    time base, the pin, the channel's compare mode with the initial pulse,
    the start or the stop of the channel's output as the descriptor's
    [outputEnable] says, and the start of the timer's counter; it stores to no
    compare register itself, writes the timer, the period and (for channels
    1 to 4 only) the register handle into the slot under the cursor, and
    leaves every other slot of the pool and both dispatch tables alone. *)
Theorem pwmOutConfig_hardware_calls hw mhz ticks value s h :
  timerFindTimerHandle (hw_tim hw) = Some h →
  (allocatedOutputPortCount s < length (pwmOutputPorts s))%nat →
  ∃ s' port,
    pwmOutConfig hw mhz ticks value s
    = Done (Some (allocatedOutputPortCount s)) s' ∧
    new_calls s s' = pwmOutConfig_calls hw h mhz ticks value ∧
    ccr_regs s' = ccr_regs s ∧
    motors s' = motors s ∧ servos s' = servos s ∧
    pwmOutputPorts s' !! allocatedOutputPortCount s = Some port ∧
    tim port = Some (hw_tim hw) ∧ period port = ticks ∧
    (∀ reg, channel_ccr (hw_channel hw) = Some reg →
            ccr port = Some (hw_tim hw, reg)) ∧
    (∀ k, k ≠ allocatedOutputPortCount s →
          pwmOutputPorts s' !! k = pwmOutputPorts s !! k).
Proof.
  intros Hh Hfree.
  destruct (lookup_lt_is_Some_2 _ _ Hfree) as [port0 Hport0].
  destruct (pwmOutConfig_allocates hw mhz ticks value s port0 Hport0)
    as (s' & Hrun & (Hports & _ & _ & Hregs & Hlog) & Hmotors & Hservos).
  unfold allocated_port, allocated_calls in *. rewrite Hh in *.
  exists s', (pwmOutConfig_port hw ticks port0).
  split; [done|]. split; [by apply new_calls_app|].
  split; [done|]. split; [done|]. split; [done|]. split.
  { rewrite Hports. by apply list_lookup_insert_eq. }
  split; [done|]. split; [done|]. split.
  - intros reg Hreg. cbn. by rewrite Hreg.
  - intros k Hk. rewrite Hports. by apply list_lookup_insert_ne.
Qed.

Lemma pwmOutConfig_tables hw mhz ticks value s p s' :
  pwmOutConfig hw mhz ticks value s = Done p s' →
  p = Some (allocatedOutputPortCount s) ∧
  motors s' = motors s ∧ servos s' = servos s ∧
  length (pwmOutputPorts s') = length (pwmOutputPorts s) ∧
  (pwmOutputPorts s !! allocatedOutputPortCount s = None →
   pwmOutputPorts s' = pwmOutputPorts s).
Proof.
  intros Hrun.
  destruct (pwmOutputPorts s !! allocatedOutputPortCount s)
    as [port0|] eqn:Hport0.
  - destruct (pwmOutConfig_allocates hw mhz ticks value s port0 Hport0)
      as (s1 & Hrun1 & (Hports & _) & Hm & Hs).
    rewrite Hrun1 in Hrun. simplify_eq.
    split; [done|]. split; [done|]. split; [done|].
    split; [|done]. by rewrite Hports, length_insert.
  - destruct (timerFindTimerHandle (hw_tim hw)) as [h|] eqn:Hh.
    + by rewrite (pwmOutConfig_exhausted _ _ _ _ _ h) in Hrun.
    + rewrite pwmOutConfig_unresolved in Hrun by done. by simplify_eq.
Qed.

(** *** What a motor configuration does *)

Lemma store_motor_past_table i p s :
  (length (motors s) ≤ i)%nat → store_motor i p s = Fault.
Proof. intros Hi. unfold store_motor. rewrite decide_False; [done|lia]. Qed.

Lemma store_servo_past_table j p s :
  (length (servos s) ≤ j)%nat → store_servo j p s = Fault.
Proof. intros Hj. unfold store_servo. rewrite decide_False; [done|lia]. Qed.

Lemma bind_motor_slot_exhausted i k f s :
  pwmOutputPorts s !! k = None →
  (store_motor i (Some k);;
   m ← load_motor i;
   update_port m (set_pwmWritePtr (Some f))) s = Fault.
Proof.
  intros Hk. destruct (decide (i < length (motors s))%nat) as [Hi|Hi].
  - rewrite (bind_done _ _ s tt (with_motors (<[i := Some k]> (motors s)) s))
      by (unfold store_motor; by rewrite decide_True).
    rewrite (bind_done _ _ _ (Some k)
               (with_motors (<[i := Some k]> (motors s)) s))
      by (apply load_motor_slot; cbn; by apply list_lookup_insert_eq).
    unfold update_port. cbn. by rewrite Hk.
  - apply bind_fault, store_motor_past_table. lia.
Qed.

Section MotorConfigurationOutcome.

Variables (hw : timerHardware_t) (mhz ticks value : Z).
Variables (motorIndex : nat) (f : pwmWriteFuncPtr) (s : state).

(** The part the three motor configuration functions share. *)
Let configure_motor : M unit :=
  p ← pwmOutConfig hw mhz ticks value;
  store_motor motorIndex p;;
  m ← load_motor motorIndex;
  update_port m (set_pwmWritePtr (Some f)).

Lemma configure_motor_returns port0 :
  (motorIndex < length (motors s))%nat →
  pwmOutputPorts s !! allocatedOutputPortCount s = Some port0 →
  ∃ s',
    configure_motor s = Done tt s' ∧
    allocation_step s s'
      (set_pwmWritePtr (Some f) (allocated_port hw ticks port0))
      (allocated_calls hw mhz ticks value) ∧
    motors s'
    = <[motorIndex := Some (allocatedOutputPortCount s)]> (motors s) ∧
    servos s' = servos s.
Proof.
  intros Hi Hport0.
  destruct (pwmOutConfig_allocates hw mhz ticks value s port0 Hport0)
    as (s1 & Hrun & (Hports & Hcount & Hen & Hregs & Hlog) & Hm & Hs).
  assert (Hfree : (allocatedOutputPortCount s < length (pwmOutputPorts s))%nat)
    by by apply lookup_lt_Some in Hport0.
  eexists. split.
  - unfold configure_motor. rewrite (bind_done _ _ _ _ _ Hrun).
    apply (bind_motor_slot _ _ _ _ (allocated_port hw ticks port0)).
    + by rewrite Hm.
    + rewrite Hports. by apply list_lookup_insert_eq.
  - unfold allocation_step. cbn.
    rewrite Hports, list_insert_insert_eq, Hm. done.
Qed.

Lemma configure_motor_faults :
  (length (motors s) ≤ motorIndex)%nat ∨
  pwmOutputPorts s !! allocatedOutputPortCount s = None →
  configure_motor s = Fault.
Proof.
  intros Hbad. unfold configure_motor.
  destruct (pwmOutConfig hw mhz ticks value s) as [p s1|] eqn:Hrun;
    [|by apply bind_fault].
  rewrite (bind_done _ _ _ _ _ Hrun).
  destruct (pwmOutConfig_tables _ _ _ _ _ _ _ Hrun)
    as (-> & Hm & _ & _ & Hsame).
  destruct Hbad as [Hi|Hnone].
  - apply bind_fault, store_motor_past_table. by rewrite Hm.
  - apply bind_motor_slot_exhausted. by rewrite (Hsame Hnone).
Qed.

Lemma configure_motor_inv s' :
  configure_motor s = Done tt s' →
  ∃ port0,
    (motorIndex < length (motors s))%nat ∧
    pwmOutputPorts s !! allocatedOutputPortCount s = Some port0 ∧
    allocation_step s s'
      (set_pwmWritePtr (Some f) (allocated_port hw ticks port0))
      (allocated_calls hw mhz ticks value) ∧
    motors s'
    = <[motorIndex := Some (allocatedOutputPortCount s)]> (motors s) ∧
    servos s' = servos s.
Proof.
  intros Hrun.
  destruct (decide (motorIndex < length (motors s))%nat) as [Hi|Hi];
    [|rewrite configure_motor_faults in Hrun; [done|left; lia]].
  destruct (pwmOutputPorts s !! allocatedOutputPortCount s)
    as [port0|] eqn:Hport0;
    [|rewrite configure_motor_faults in Hrun; [done|by right]].
  destruct (configure_motor_returns port0 Hi Hport0) as (s1 & Hrun1 & Hrest).
  rewrite Hrun1 in Hrun. simplify_eq. by exists port0.
Qed.

End MotorConfigurationOutcome.

Lemma pwmOneshotMotorConfig_inv hw i s s' :
  pwmOneshotMotorConfig hw i s = Done tt s' →
  ∃ port0,
    (i < length (motors s))%nat ∧
    pwmOutputPorts s !! allocatedOutputPortCount s = Some port0 ∧
    allocation_step s s'
      (set_pwmWritePtr (Some Ptr_pwmWriteStandard)
         (allocated_port hw 65535 port0))
      (allocated_calls hw (to_uint8 ONESHOT125_TIMER_MHZ) 65535 0) ∧
    motors s' = <[i := Some (allocatedOutputPortCount s)]> (motors s) ∧
    servos s' = servos s.
Proof. apply configure_motor_inv. Qed.

Lemma pwmBrushlessMotorConfig_inv hw i rate idle s s' :
  pwmBrushlessMotorConfig hw i rate idle s = Done tt s' →
  ∃ port0,
    rate ≠ 0 ∧
    (i < length (motors s))%nat ∧
    pwmOutputPorts s !! allocatedOutputPortCount s = Some port0 ∧
    allocation_step s s'
      (set_pwmWritePtr (Some Ptr_pwmWriteStandard)
         (allocated_port hw
            (to_uint16 (to_uint32 (int_mul PWM_TIMER_MHZ 1000000) / rate))
            port0))
      (allocated_calls hw (to_uint8 PWM_TIMER_MHZ)
         (to_uint16 (to_uint32 (int_mul PWM_TIMER_MHZ 1000000) / rate))
         idle) ∧
    motors s' = <[i := Some (allocatedOutputPortCount s)]> (motors s) ∧
    servos s' = servos s.
Proof.
  unfold pwmBrushlessMotorConfig. destruct (decide (rate = 0)); [done|].
  intros Hrun. apply configure_motor_inv in Hrun as (port0 & Hrest).
  by exists port0.
Qed.

Lemma pwmBrushedMotorConfig_inv hw i rate idle s s' :
  pwmBrushedMotorConfig hw i rate idle s = Done tt s' →
  ∃ port0,
    rate ≠ 0 ∧
    (i < length (motors s))%nat ∧
    pwmOutputPorts s !! allocatedOutputPortCount s = Some port0 ∧
    allocation_step s s'
      (set_pwmWritePtr (Some Ptr_pwmWriteBrushed)
         (allocated_port hw
            (to_uint16
               (to_uint32 (int_mul PWM_BRUSHED_TIMER_MHZ 1000000) / rate))
            port0))
      (allocated_calls hw (to_uint8 PWM_BRUSHED_TIMER_MHZ)
         (to_uint16
            (to_uint32 (int_mul PWM_BRUSHED_TIMER_MHZ 1000000) / rate))
         idle) ∧
    motors s' = <[i := Some (allocatedOutputPortCount s)]> (motors s) ∧
    servos s' = servos s.
Proof.
  unfold pwmBrushedMotorConfig. destruct (decide (rate = 0)); [done|].
  intros Hrun. apply configure_motor_inv in Hrun as (port0 & Hrest).
  by exists port0.
Qed.


(** *** What a servo configuration does *)

Lemma pwmServoConfig_returns hw j rate centre s port0 :
  rate ≠ 0 → (j < length (servos s))%nat →
  pwmOutputPorts s !! allocatedOutputPortCount s = Some port0 →
  ∃ s',
    pwmServoConfig hw j rate centre s = Done tt s' ∧
    allocation_step s s'
      (allocated_port hw (to_uint16 (int_div 1000000 rate)) port0)
      (allocated_calls hw (to_uint8 PWM_TIMER_MHZ)
         (to_uint16 (int_div 1000000 rate)) centre) ∧
    servos s' = <[j := Some (allocatedOutputPortCount s)]> (servos s) ∧
    motors s' = motors s.
Proof.
  intros Hr Hj Hport0. unfold pwmServoConfig. rewrite decide_False by done.
  destruct (pwmOutConfig_allocates hw (to_uint8 PWM_TIMER_MHZ)
              (to_uint16 (int_div 1000000 rate)) centre s port0 Hport0)
    as (s1 & Hrun & Hstep & Hm & Hs).
  eexists. split.
  - rewrite (bind_done _ _ _ _ _ Hrun). unfold store_servo.
    rewrite decide_True by by rewrite Hs. done.
  - unfold allocation_step in *. cbn. by rewrite Hs.
Qed.



(** *** Configuring an output and then writing to it *)

Lemma configured_port_servo hw h reg ticks port0 :
  timerFindTimerHandle (hw_tim hw) = Some h →
  channel_ccr (hw_channel hw) = Some reg →
  allocated_port hw ticks port0
  = configured_port hw reg ticks (pwmWritePtr port0).
Proof.
  intros Hh Hch. unfold allocated_port, pwmOutConfig_port, configured_port.
  by rewrite Hh, Hch.
Qed.

Section ConfigureThenWrite.

(** A descriptor whose timer has the handle [h] and whose channel has the
    compare register [reg]; a pool slot under the cursor; an index inside
    the dispatch table and below the range test of the write; a register
    type of sixteen bits at least. *)
Variables (hw : timerHardware_t) (h : tim_handle) (reg : ccr_id).
Variables (s : state) (port0 : pwmOutputPort_t) (index : nat).
Hypothesis timer_resolved : timerFindTimerHandle (hw_tim hw) = Some h.
Hypothesis channel_known : channel_ccr (hw_channel hw) = Some reg.
Hypothesis slot_free :
  pwmOutputPorts s !! allocatedOutputPortCount s = Some port0.
Hypothesis ccr_wide : 16 ≤ ccr_bits.

Lemma configured_motor_write (cfg : M unit) s' ticks f v :
  (index < MAX_MOTORS)%nat → pwmMotorsEnabled s = true →
  cfg s = Done tt s' →
  motor_port s' index = Some (configured_port hw reg ticks (Some f)) →
  pwmMotorsEnabled s' = pwmMotorsEnabled s →
  ∃ s'', (cfg;; pwmWriteMotor index v) s = Done tt s'' ∧
         motor_reading s'' index = Some (to_timCCR (pulse_of f ticks v)) ∧
         ccr_regs s'' !! (hw_tim hw, reg)
         = Some (to_timCCR (pulse_of f ticks v)).
Proof.
  intros Hi Hen Hcfg Hport Hgate. eexists. split.
  - rewrite (bind_done _ _ _ _ _ Hcfg).
    apply (pwmWriteMotor_writes s' index v
             (configured_port hw reg ticks (Some f)) (hw_tim hw, reg) f);
      [done|exact Hport|done|done|congruence].
  - split.
    + apply stored_motor_reading. unfold motor_ccr. by rewrite Hport.
    + cbn. apply lookup_insert_eq.
Qed.

(** X8: after [pwmOneshotMotorConfig] or [pwmBrushlessMotorConfig] of motor
    [index] on a timer with a handle and a channel 1 to 4, taken from a free
    pool slot, [pwmWriteMotor index v] with the motors enabled stores the
    16-bit value [v] unchanged into that channel's compare register, whatever
    the rate and the idle pulse of the configuration were. *)
Theorem standard_motor_configure_then_write v :
  (index < length (motors s))%nat → (index < MAX_MOTORS)%nat →
  pwmMotorsEnabled s = true → 0 ≤ v < 2 ^ 16 →
  (∃ s', (pwmOneshotMotorConfig hw index;; pwmWriteMotor index v) s
         = Done tt s' ∧
         motor_reading s' index = Some v ∧
         ccr_regs s' !! (hw_tim hw, reg) = Some v) ∧
  (∀ rate idle, rate ≠ 0 →
     ∃ s', (pwmBrushlessMotorConfig hw index rate idle;;
            pwmWriteMotor index v) s = Done tt s' ∧
           motor_reading s' index = Some v ∧
           ccr_regs s' !! (hw_tim hw, reg) = Some v).
Proof.
  intros Htable Hi Hen Hv. split.
  - destruct (pwmOneshotMotorConfig_binds hw h reg s port0 index)
      as (s1 & Hcfg & Hport & Hgate); [done..|].
    destruct (configured_motor_write _ s1 _ _ v Hi Hen Hcfg Hport Hgate)
      as (s2 & Hrun & Hread & Hreg).
    exists s2. cbn [pulse_of] in Hread, Hreg.
    rewrite to_timCCR_small in Hread, Hreg by done. done.
  - intros rate idle Hrate.
    destruct (pwmBrushlessMotorConfig_binds hw h reg s port0 index
                timer_resolved channel_known slot_free Htable rate idle Hrate)
      as (s1 & Hcfg & Hport & Hgate).
    destruct (configured_motor_write _ s1 _ _ v Hi Hen Hcfg Hport Hgate)
      as (s2 & Hrun & Hread & Hreg).
    exists s2. cbn [pulse_of] in Hread, Hreg.
    rewrite to_timCCR_small in Hread, Hreg by done. done.
Qed.

(** X9: [pwmBrushedMotorConfig] gives the port the period
    [(PWM_BRUSHED_TIMER_MHZ * 1000000 / rate) mod 2^16], which is the quotient
    itself when that fits sixteen bits; a following [pwmWriteMotor index v]
    with [v] in [1000, 2000] leaves the register reading
    [(v - 1000) * period ÷ 1000], a value between 0 and the period that is 0
    at 1000 and the period at 2000. *)
Theorem brushed_motor_configure_then_write rate idle v :
  (index < length (motors s))%nat → (index < MAX_MOTORS)%nat →
  pwmMotorsEnabled s = true → rate ≠ 0 → 1000 ≤ v ≤ 2000 →
  ∃ s' ticks,
    ticks = to_uint16 (to_uint32 (int_mul PWM_BRUSHED_TIMER_MHZ 1000000)
                       / rate) ∧
    (0 ≤ PWM_BRUSHED_TIMER_MHZ * 1000000 < 2 ^ 31 → 0 < rate →
     PWM_BRUSHED_TIMER_MHZ * 1000000 / rate < 2 ^ 16 →
     ticks = PWM_BRUSHED_TIMER_MHZ * 1000000 / rate) ∧
    (pwmBrushedMotorConfig hw index rate idle;; pwmWriteMotor index v) s
    = Done tt s' ∧
    motor_reading s' index = Some ((v - 1000) * ticks ÷ 1000) ∧
    0 ≤ (v - 1000) * ticks ÷ 1000 ≤ ticks ∧
    (1000 - 1000) * ticks ÷ 1000 = 0 ∧
    (2000 - 1000) * ticks ÷ 1000 = ticks.
Proof.
  intros Htable Hi Hen Hrate Hv.
  set (ticks := to_uint16 (to_uint32 (int_mul PWM_BRUSHED_TIMER_MHZ 1000000)
                           / rate)).
  assert (Hticks : 0 ≤ ticks < 2 ^ 16)
    by (unfold ticks, to_uint16; apply Z.mod_pos_bound; lia).
  destruct (pwmBrushedMotorConfig_binds hw h reg s port0 index
              timer_resolved channel_known slot_free Htable rate idle Hrate)
    as (s1 & Hcfg & Hport & Hgate).
  destruct (configured_motor_write _ s1 _ _ v Hi Hen Hcfg Hport Hgate)
    as (s2 & Hrun & Hread & _).
  destruct (brushed_pulse_in_range ticks v Hticks Hv) as [Hpulse Hrange].
  fold ticks in Hread. rewrite Hpulse, to_timCCR_small in Hread by lia.
  exists s2, ticks. split; [done|]. split.
  { intros Hhz Hpos Hfit. unfold ticks, to_uint16, to_uint32, int_mul.
    rewrite to_int_small by lia.
    rewrite (Z.mod_small (PWM_BRUSHED_TIMER_MHZ * 1000000)) by lia.
    apply Z.mod_small. split; [apply Z.div_pos; lia|done]. }
  split; [done|]. split; [done|]. split; [done|]. split.
  - by rewrite Z.sub_diag, Z.mul_0_l.
  - replace (2000 - 1000) with 1000 by lia.
    rewrite Z.mul_comm. apply Z.quot_mul. lia.
Qed.

(** X10: after [pwmServoConfig] of servo [index] on a timer with a handle
    and a channel 1 to 4, taken from a free pool slot, the port's period is
    [(1000000 ÷ rate) mod 2^16] and [pwmWriteServo index v] stores the 16-bit
    value [v] unchanged into that channel's compare register, with the motors
    enabled or disabled. *)
Theorem servo_configure_then_write rate centre v :
  (index < length (servos s))%nat → (index < MAX_SERVOS)%nat →
  rate ≠ 0 → 0 ≤ v < 2 ^ 16 →
  ∃ s1 port,
    pwmServoConfig hw index rate centre s = Done tt s1 ∧
    servo_port s1 index = Some port ∧
    period port = to_uint16 (int_div 1000000 rate) ∧
    ∀ gate, ∃ s2,
      pwmWriteServo index v (with_enabled gate s1) = Done tt s2 ∧
      servo_reading s2 index = Some v ∧
      ccr_regs s2 !! (hw_tim hw, reg) = Some v.
Proof.
  intros Htable Hj Hrate Hv.
  destruct (pwmServoConfig_returns hw index rate centre s port0
              Hrate Htable slot_free)
    as (s1 & Hcfg & (Hports & _) & Hservos & _).
  rewrite (configured_port_servo hw h reg) in Hports by done.
  assert (Hfree : (allocatedOutputPortCount s < length (pwmOutputPorts s))%nat)
    by by apply lookup_lt_Some in slot_free.
  assert (Hport : servo_port s1 index
    = Some (configured_port hw reg (to_uint16 (int_div 1000000 rate))
              (pwmWritePtr port0))).
  { unfold servo_port. rewrite Hservos, Hports.
    rewrite list_lookup_insert_eq by done.
    by rewrite list_lookup_insert_eq by done. }
  eexists s1, _. split; [done|]. split; [exact Hport|]. split; [done|].
  intros gate. eexists. split.
  - by apply (pwmWriteServo_writes _ index v
                (configured_port hw reg (to_uint16 (int_div 1000000 rate))
                   (pwmWritePtr port0)) (hw_tim hw, reg)).
  - rewrite to_timCCR_small by done. split.
    + by apply (stored_servo_reading _ index
                  (configured_port hw reg (to_uint16 (int_div 1000000 rate))
                     (pwmWritePtr port0)) (hw_tim hw, reg)).
    + cbn. apply lookup_insert_eq.
Qed.

End ConfigureThenWrite.

(** *** Configuration calls as operations *)

Lemma motor_config_op_inv op hw i s s' :
  op_motor_index op = Some i → op_hardware op = Some hw →
  run_op op s = Done tt s' →
  ∃ port0 mhz ticks value f,
    (i < length (motors s))%nat ∧
    pwmOutputPorts s !! allocatedOutputPortCount s = Some port0 ∧
    allocation_step s s'
      (set_pwmWritePtr (Some f) (allocated_port hw ticks port0))
      (allocated_calls hw mhz ticks value) ∧
    motors s' = <[i := Some (allocatedOutputPortCount s)]> (motors s) ∧
    servos s' = servos s.
Proof.
  intros Hidx Hhw Hrun. destruct op; try done; cbn in Hidx, Hhw, Hrun;
    simplify_eq.
  - apply pwmBrushedMotorConfig_inv in Hrun as (port0 & _ & Hrest).
    by eexists port0, _, _, _, _.
  - apply pwmBrushlessMotorConfig_inv in Hrun as (port0 & _ & Hrest).
    by eexists port0, _, _, _, _.
  - apply pwmOneshotMotorConfig_inv in Hrun as (port0 & Hrest).
    by eexists port0, _, _, _, _.
Qed.


Lemma allocation_step_slot s s' port0 port calls :
  pwmOutputPorts s !! allocatedOutputPortCount s = Some port0 →
  allocation_step s s' port calls →
  pwmOutputPorts s' !! allocatedOutputPortCount s = Some port.
Proof.
  intros Hport0 (Hports & _). rewrite Hports.
  apply list_lookup_insert_eq. by apply lookup_lt_Some in Hport0.
Qed.

Lemma motor_config_op_binds op hw i s s' :
  op_motor_index op = Some i → op_hardware op = Some hw →
  run_op op s = Done tt s' →
  ∃ port0 ticks f,
    pwmOutputPorts s !! allocatedOutputPortCount s = Some port0 ∧
    motor_port s' i
    = Some (set_pwmWritePtr (Some f) (allocated_port hw ticks port0)) ∧
    pwmMotorsEnabled s' = pwmMotorsEnabled s.
Proof.
  intros Hidx Hhw Hrun.
  destruct (motor_config_op_inv op hw i s s' Hidx Hhw Hrun)
    as (port0 & mhz & ticks & value & f & Hi & Hport0 & Hstep & Hm & _).
  exists port0, ticks, f. split; [done|]. split.
  - unfold motor_port. rewrite Hm, list_lookup_insert_eq by done.
    by apply (allocation_step_slot s s' port0 _ _ Hport0 Hstep).
  - by destruct Hstep as (_ & _ & ? & _).
Qed.

(** *** A port left without register *)

Lemma allocated_port_no_register hw ticks port0 :
  timerFindTimerHandle (hw_tim hw) = None ∨
  channel_ccr (hw_channel hw) = None →
  ccr port0 = None → ccr (allocated_port hw ticks port0) = None.
Proof.
  intros Hbad Hnone. unfold allocated_port, pwmOutConfig_port.
  destruct (timerFindTimerHandle (hw_tim hw)); [|done].
  destruct Hbad as [?|Hch]; [done|]. cbn. by rewrite Hch.
Qed.

Lemma pwmWriteMotor_null_register s i v port f :
  (i < MAX_MOTORS)%nat → motor_port s i = Some port →
  ccr port = None → pwmWritePtr port = Some f →
  pwmMotorsEnabled s = true →
  pwmWriteMotor i v s = Fault.
Proof.
  intros Hi Hp Hr Hf Hen. destruct (motor_port_slot s i port Hp) as [k Hk].
  unfold pwmWriteMotor.
  rewrite (bind_done _ _ s (Some k) s) by by apply load_motor_slot.
  rewrite (bind_done _ _ s true s) by (unfold gets; by f_equal).
  rewrite !bool_decide_eq_true_2 by done. cbn [andb].
  rewrite (bind_done _ _ s port s) by by apply motor_deref_port.
  rewrite Hf. destruct f; cbn [call_pwmWritePtr].
  - unfold pwmWriteBrushed.
    rewrite (bind_done _ _ s port s) by by apply motor_deref_port.
    by rewrite Hr.
  - unfold pwmWriteStandard.
    rewrite (bind_done _ _ s port s) by by apply motor_deref_port.
    by rewrite Hr.
Qed.

(** X11: a motor configuration call whose timer has no handle, or whose
    channel is none of channels 1 to 4, returns all the same when it is given
    a fresh pool slot: it binds the motor to a port that has a write function
    but no compare register.  From then on, with the motors enabled, every
    [pwmWriteMotor] to that motor dereferences the null register handle, and
    so does every [pwmShutdownPulsesForAllMotors] and
    [pwmCompleteOneshotMotorUpdate] whose count reaches the motor; with the
    motors disabled the write is skipped. *)
Theorem half_configured_motor_faults op hw index s s' port0 :
  op_motor_index op = Some index → op_hardware op = Some hw →
  timerFindTimerHandle (hw_tim hw) = None ∨
  channel_ccr (hw_channel hw) = None →
  pwmOutputPorts s !! allocatedOutputPortCount s = Some port0 →
  ccr port0 = None →
  (index < MAX_MOTORS)%nat → pwmMotorsEnabled s = true →
  run_op op s = Done tt s' →
  motor_ccr s' index = None ∧
  (∀ v, pwmWriteMotor index v s' = Fault) ∧
  (∀ count, (index < count)%nat →
     pwmShutdownPulsesForAllMotors count s' = Fault ∧
     pwmCompleteOneshotMotorUpdate count s' = Fault) ∧
  (∀ v, pwmWriteMotor index v (with_enabled false s')
        = Done tt (with_enabled false s')).
Proof.
  intros Hidx Hhw Hbad Hport0 Hfresh Hi Hen Hrun.
  destruct (motor_config_op_binds op hw index s s' Hidx Hhw Hrun)
    as (port0' & ticks & f & Hport0' & Hport & Hgate).
  rewrite Hport0 in Hport0'. simplify_eq.
  assert (Hnone : motor_ccr s' index = None).
  { unfold motor_ccr. rewrite Hport. cbn.
    by apply allocated_port_no_register. }
  split; [done|]. split; [|split].
  - intros v. apply (pwmWriteMotor_null_register s' index v _ f Hi Hport).
    + cbn. by apply allocated_port_no_register.
    + done.
    + congruence.
  - intros count Hcount. split.
    + by apply (pwmShutdownPulsesForAllMotors_unregistered count s' index).
    + by apply (pwmCompleteOneshotMotorUpdate_unregistered count s' index).
  - intros v. destruct (motor_port_slot s' index _ Hport) as [k Hk].
    apply (pwmWriteMotor_skips _ index v (Some k)); [done|]. by right; right.
Qed.

(** *** What a configuration call leaves alone *)





(** *** The cursor counts the configuration calls *)

Lemma run_op_count_exact op s s' :
  run_op op s = Done tt s' →
  allocatedOutputPortCount s'
  = if is_config op
    then ((allocatedOutputPortCount s + 1) mod 256)%nat
    else allocatedOutputPortCount s.
Proof.
  destruct op; cbn [run_op is_config]; intros E.
  - by apply (keeps_count_pwmWriteMotor _ _ _ _ _ E).
  - by apply (keeps_count_pwmShutdownPulsesForAllMotors _ _ _ _ E).
  - by apply (keeps_count_gate _ _ _ _ E).
  - by apply (keeps_count_gate _ _ _ _ E).
  - by apply (keeps_count_pwmCompleteOneshotMotorUpdate _ _ _ _ E).
  - by apply (bumps_count_pwmBrushedMotorConfig _ _ _ _ _ _ _ E).
  - by apply (bumps_count_pwmBrushlessMotorConfig _ _ _ _ _ _ _ E).
  - by apply (bumps_count_pwmOneshotMotorConfig _ _ _ _ _ E).
  - by apply (bumps_count_pwmServoConfig _ _ _ _ _ _ _ E).
  - by apply (keeps_count_pwmWriteServo _ _ _ _ _ E).
Qed.

Lemma run_ops_cons op ops s s' :
  run_ops (op :: ops) s = Done tt s' →
  ∃ s1, run_op op s = Done tt s1 ∧ run_ops ops s1 = Done tt s'.
Proof.
  cbn [run_ops foldr]. intros Hrun.
  apply bind_inv in Hrun as ([] & s1 & H1 & H2). by exists s1.
Qed.

(** X13: after any sequence of calls into the driver that returns,
    [allocatedOutputPortCount] has advanced, modulo 256, by the number of
    configuration calls in the sequence, whether or not their timers had a
    handle; the other calls do not move it. *)
Theorem cursor_counts_configuration_calls ops s s' :
  (allocatedOutputPortCount s < 256)%nat →
  run_ops ops s = Done tt s' →
  allocatedOutputPortCount s'
  = ((allocatedOutputPortCount s + config_count ops) mod 256)%nat.
Proof.
  revert s. induction ops as [|op ops IH]; intros s Hlt Hrun.
  - cbv [run_ops foldr mret M_ret ret] in Hrun. simplify_eq.
    cbn [config_count]. rewrite Nat.add_0_r. symmetry.
    by apply Nat.mod_small.
  - apply run_ops_cons in Hrun as (s1 & H1 & Hrest).
    pose proof (run_op_count_exact _ _ _ H1) as Hc.
    assert (Hlt1 : (allocatedOutputPortCount s1 < 256)%nat).
    { rewrite Hc. destruct (is_config op); [|done].
      apply Nat.mod_upper_bound. lia. }
    rewrite (IH s1 Hlt1 Hrest), Hc. cbn [config_count].
    destruct (is_config op).
    + rewrite Nat.Div0.add_mod_idemp_l. f_equal. lia.
    + done.
Qed.

(** *** Well-formed tables are kept *)





(** *** Writes in sequence *)

(** X15: two [pwmWriteMotor] calls to a configured motor, with the motors
    enabled, are two stores to that motor's compare register, in order, and
    nothing else: the register reads the pulse of the second value, every
    other compare register holds what it held, and with the standard write
    function the reading is the second 16-bit value itself. *)
Theorem pwmWriteMotor_last_write_wins s i port r f v1 v2 :
  (i < MAX_MOTORS)%nat → motor_port s i = Some port →
  ccr port = Some r → pwmWritePtr port = Some f →
  pwmMotorsEnabled s = true →
  ∃ s',
    (pwmWriteMotor i v1;; pwmWriteMotor i v2) s = Done tt s' ∧
    motor_reading s' i = Some (to_timCCR (pulse_of f (period port) v2)) ∧
    new_calls s s'
    = [Store_ccr r (to_timCCR (pulse_of f (period port) v1));
       Store_ccr r (to_timCCR (pulse_of f (period port) v2))] ∧
    (∀ r', r' ≠ r → ccr_regs s' !! r' = ccr_regs s !! r') ∧
    (f = Ptr_pwmWriteStandard → 16 ≤ ccr_bits → 0 ≤ v2 < 2 ^ 16 →
     motor_reading s' i = Some v2).
Proof.
  intros Hi Hp Hr Hf Hen.
  pose proof (pwmWriteMotor_writes s i v1 port r f Hi Hp Hr Hf Hen) as H1.
  set (s1 := stored r (to_timCCR (pulse_of f (period port) v1)) s) in *.
  assert (Hp1 : motor_port s1 i = Some port) by exact Hp.
  pose proof (pwmWriteMotor_writes s1 i v2 port r f Hi Hp1 Hr Hf Hen) as H2.
  assert (Hccr : motor_ccr s1 i = Some r)
    by (unfold motor_ccr; by rewrite Hp1).
  eexists. split; [by rewrite (bind_done _ _ _ _ _ H1)|].
  assert (Hread : motor_reading
            (stored r (to_timCCR (pulse_of f (period port) v2)) s1) i
          = Some (to_timCCR (pulse_of f (period port) v2)))
    by by apply stored_motor_reading.
  split; [done|]. split; [|split].
  - apply new_calls_app. cbn. by rewrite <- app_assoc.
  - intros r' Hne. cbn. by rewrite !lookup_insert_ne.
  - intros -> Hw Hv. rewrite Hread. cbn [pulse_of].
    by rewrite to_timCCR_small.
Qed.

(** *** Pool slots are handed out once *)






(** *** Brushed commands above the range *)

(** X17: the brushed write does not clamp above 2000 either: for a motor
    bound to a port with the brushed write function and period [P], with the
    motors enabled and a register type of 22 bits or more,
    [pwmWriteMotor i v] for [2000 < v <= 33768] (where the product still fits
    an [int]) leaves the register reading [(v - 1000) * P ÷ 1000], which is
    at least the period. *)
Theorem pwmWriteMotor_brushed_above_2000 s i port r v :
  (i < MAX_MOTORS)%nat → motor_port s i = Some port →
  ccr port = Some r → pwmWritePtr port = Some Ptr_pwmWriteBrushed →
  pwmMotorsEnabled s = true →
  0 ≤ period port < 2 ^ 16 → 22 ≤ ccr_bits →
  2000 < v ≤ 33768 →
  motor_write_reading s i v = Some ((v - 1000) * period port ÷ 1000) ∧
  period port ≤ (v - 1000) * period port ÷ 1000.
Proof.
  intros Hi Hp Hr Hf Hen HP Hw Hv.
  assert (Hprod : 1000 * period port ≤ (v - 1000) * period port
                  ≤ 32768 * 65535) by nia.
  assert (Hq : period port ≤ (v - 1000) * period port ÷ 1000 < 2 ^ 22).
  { rewrite Z.quot_div_nonneg by lia. split.
    - apply Z.div_le_lower_bound; lia.
    - apply Z.div_lt_upper_bound; lia. }
  rewrite (brushed_write_reading s i port r Hi Hp Hr Hf Hen v).
  unfold pulse_of, int_div, int_mul, int_sub.
  rewrite (to_int_small (v - 1000)) by lia.
  rewrite (to_int_small ((v - 1000) * period port)) by lia.
  rewrite to_int_small by lia.
  split; [|lia]. f_equal. apply Z.mod_small. split; [lia|].
  apply Z.lt_le_trans with (2 ^ 22); [lia|].
  apply Z.pow_le_mono_r; lia.
Qed.

End Extensions.


(** ** The driver on the sample board *)

Section OnSampleBoard.
#[local] Existing Instance sample_board.

(** C1 (as stated) fails: in [oneshot_interleaved] the three motor slots are
    configured, motors 0 and 2 share timer 1 with motor 1 on timer 2 between
    them, and one oneshot cycle forces timer 1 twice. *)
Lemma oneshot_interleaved_timer_forced_twice :
  motors_configured oneshot_interleaved 3 ∧
  motor_tims oneshot_interleaved 0 3 = [Some 1; Some 2; Some 1]%nat ∧
  (∃ s', pwmCompleteOneshotMotorUpdate 3 oneshot_interleaved = Done tt s' ∧
         overflow_count 1%nat (new_calls oneshot_interleaved s') = 2%nat) ∧
  ¬ oneshot_forces_each_timer_once oneshot_interleaved 3.
Proof.
  split; [by apply motors_configured_check_sound|].
  split; [by vm_compute|]. split.
  - eexists. split; by vm_compute.
  - intros (s' & Hrun & Hcount & _).
    assert (H1 : overflow_count 1%nat (new_calls oneshot_interleaved s') = 1%nat).
    { apply Hcount. exists 0%nat. split; [lia|]. by vm_compute. }
    vm_compute in Hrun. injection Hrun as <-. vm_compute in H1. done.
Qed.

Lemma pwmCompleteOneshotMotorUpdate_once_per_timer_run_witness :
  motors_configured oneshot_adjacent 3 ∧
  timers_index_adjacent oneshot_adjacent 3 ∧
  (∃ s', pwmCompleteOneshotMotorUpdate 3 oneshot_adjacent = Done tt s' ∧
         new_calls oneshot_adjacent s'
         = map Call_timerForceOverflow
             (timer_changes None (motor_tims oneshot_adjacent 0 3))
           ++ map (λ r, Store_ccr r 0) (motor_ccrs oneshot_adjacent 0 3) ∧
         ∀ i, (i < 3)%nat → motor_reading s' i = Some 0) ∧
  oneshot_forces_each_timer_once oneshot_adjacent 3.
Proof.
  assert (Hcfg : motors_configured oneshot_adjacent 3)
    by by apply motors_configured_check_sound.
  assert (Hadj : timers_index_adjacent oneshot_adjacent 3).
  { intros i j k Hij Hjk Hk.
    destruct i as [|[|[|i]]], j as [|[|[|j]]], k as [|[|[|k]]];
      try lia; vm_compute; congruence. }
  split; [done|]. split; [done|].
  destruct (pwmCompleteOneshotMotorUpdate_once_per_timer_run
              3 oneshot_adjacent Hcfg) as [Hrun Honce].
  split; [exact Hrun|exact (Honce Hadj)].
Defined.

Lemma pwmCompleteOneshotMotorUpdate_overflows_before_zeroing_witness :
  motors_configured oneshot_interleaved 3 ∧
  ∃ s' forced cleared,
    pwmCompleteOneshotMotorUpdate 3 oneshot_interleaved = Done tt s' ∧
    hw_log s' = hw_log oneshot_interleaved ++ forced ++ cleared ∧
    Forall (λ e, ∃ t, e = Call_timerForceOverflow t) forced ∧
    cleared = map (λ r, Store_ccr r 0) (motor_ccrs oneshot_interleaved 0 3) ∧
    length cleared = 3%nat ∧
    ∀ a b t r v,
      new_calls oneshot_interleaved s' !! a
        = Some (Call_timerForceOverflow t) →
      new_calls oneshot_interleaved s' !! b = Some (Store_ccr r v) →
      (a < b)%nat.
Proof.
  assert (Hcfg : motors_configured oneshot_interleaved 3)
    by by apply motors_configured_check_sound.
  split; [done|].
  by apply pwmCompleteOneshotMotorUpdate_overflows_before_zeroing.
Defined.

Lemma pwmShutdownPulsesForAllMotors_zeroes_witness :
  motors_configured oneshot_adjacent 3 ∧
  ∃ s',
    pwmShutdownPulsesForAllMotors 3 oneshot_adjacent = Done tt s' ∧
    (∀ i, (i < 3)%nat → motor_reading s' i = Some 0) ∧
    ∀ gate,
      pwmShutdownPulsesForAllMotors 3 (with_enabled gate oneshot_adjacent)
      = Done tt (with_enabled gate s').
Proof.
  assert (Hcfg : motors_configured oneshot_adjacent 3)
    by by apply motors_configured_check_sound.
  split; [done|]. by apply pwmShutdownPulsesForAllMotors_zeroes.
Defined.

Lemma pwmWriteMotor_brushed_scaling_witness :
  ((0 < MAX_MOTORS)%nat ∧
   motor_port brushed_and_servo 0 = Some sample_brushed_port ∧
   ccr sample_brushed_port = Some (1%nat, CCR1) ∧
   pwmWritePtr sample_brushed_port = Some Ptr_pwmWriteBrushed ∧
   pwmMotorsEnabled brushed_and_servo = true ∧
   0 ≤ period sample_brushed_port < 2 ^ 16 ∧
   16 ≤ ccr_bits) ∧
  (∀ v, 1000 ≤ v ≤ 2000 →
     motor_write_reading brushed_and_servo 0 v
       = Some ((v - 1000) * period sample_brushed_port ÷ 1000) ∧
     ∃ s', pwmWriteMotor 0 v brushed_and_servo = Done tt s' ∧
           ccr_regs s' !! (1%nat, CCR1)
             = Some ((v - 1000) * period sample_brushed_port ÷ 1000)) ∧
  (∀ v1 v2, 1000 ≤ v1 → v1 ≤ v2 → v2 ≤ 2000 →
     ∃ x1 x2, motor_write_reading brushed_and_servo 0 v1 = Some x1 ∧
              motor_write_reading brushed_and_servo 0 v2 = Some x2 ∧
              x1 ≤ x2).
Proof.
  assert (Hi : (0 < MAX_MOTORS)%nat) by (cbn; lia).
  assert (Hp : motor_port brushed_and_servo 0 = Some sample_brushed_port)
    by by vm_compute.
  assert (Hr : ccr sample_brushed_port = Some (1%nat, CCR1)) by done.
  assert (Hf : pwmWritePtr sample_brushed_port = Some Ptr_pwmWriteBrushed)
    by done.
  assert (Hen : pwmMotorsEnabled brushed_and_servo = true) by by vm_compute.
  assert (HP : 0 ≤ period sample_brushed_port < 2 ^ 16) by (cbn; lia).
  assert (Hw : 16 ≤ ccr_bits) by (cbn; lia).
  split; [done|].
  exact (pwmWriteMotor_brushed_scaling brushed_and_servo 0
           sample_brushed_port (1%nat, CCR1) Hi Hp Hr Hf Hen HP Hw).
Defined.

(** C9 (as stated) fails: on the brushed motor of [brushed_and_servo], whose
    period is 500, [pwmWriteMotor 0 999] computes [-500 ÷ 1000 = 0] and the
    register reads 0. *)
Lemma brushed_999_truncates_to_zero :
  motor_port brushed_and_servo 0 = Some sample_brushed_port ∧
  motor_write_reading brushed_and_servo 0 999 = Some 0 ∧
  ¬ brushed_underrange_wraps brushed_and_servo 0 999.
Proof.
  split; [by vm_compute|]. split; [by vm_compute|].
  intros (s' & port & x & _ & Hp & _ & Hneg & _).
  vm_compute in Hp. injection Hp as <-. by vm_compute in Hneg.
Qed.

Lemma pwmWriteMotor_brushed_below_1000_witness :
  ((0 < MAX_MOTORS)%nat ∧
   motor_port brushed_and_servo 0 = Some sample_brushed_port ∧
   ccr sample_brushed_port = Some (1%nat, CCR1) ∧
   pwmWritePtr sample_brushed_port = Some Ptr_pwmWriteBrushed ∧
   pwmMotorsEnabled brushed_and_servo = true ∧
   0 ≤ period sample_brushed_port < 2 ^ 16 ∧
   16 ≤ ccr_bits ∧
   0 ≤ 900 < 1000) ∧
  motor_write_reading brushed_and_servo 0 900
    = Some (to_timCCR ((900 - 1000) * period sample_brushed_port ÷ 1000)) ∧
  (1000 ≤ (1000 - 900) * period sample_brushed_port →
     brushed_underrange_wraps brushed_and_servo 0 900 ∧
     ∃ x, motor_write_reading brushed_and_servo 0 900 = Some x ∧
          2 ^ ccr_bits - period sample_brushed_port ≤ x < 2 ^ ccr_bits) ∧
  ((1000 - 900) * period sample_brushed_port < 1000 →
     (900 - 1000) * period sample_brushed_port ÷ 1000 = 0 ∧
     motor_write_reading brushed_and_servo 0 900 = Some 0).
Proof.
  assert (Hi : (0 < MAX_MOTORS)%nat) by (cbn; lia).
  assert (Hp : motor_port brushed_and_servo 0 = Some sample_brushed_port)
    by by vm_compute.
  assert (Hr : ccr sample_brushed_port = Some (1%nat, CCR1)) by done.
  assert (Hf : pwmWritePtr sample_brushed_port = Some Ptr_pwmWriteBrushed)
    by done.
  assert (Hen : pwmMotorsEnabled brushed_and_servo = true) by by vm_compute.
  assert (HP : 0 ≤ period sample_brushed_port < 2 ^ 16) by (cbn; lia).
  assert (Hw : 16 ≤ ccr_bits) by (cbn; lia).
  assert (Hv : 0 ≤ 900 < 1000) by lia.
  split; [done|].
  exact (pwmWriteMotor_brushed_below_1000 brushed_and_servo 0
           sample_brushed_port (1%nat, CCR1) Hi Hp Hr Hf Hen HP Hw 900 Hv).
Defined.

Lemma motor_gate_frame_witness :
  ((0 < MAX_MOTORS)%nat ∧
   motor_port brushed_and_servo 0 = Some sample_brushed_port ∧
   ccr sample_brushed_port = Some (1%nat, CCR1) ∧
   pwmWritePtr sample_brushed_port = Some Ptr_pwmWriteBrushed ∧
   (0 < MAX_SERVOS)%nat ∧
   servo_port brushed_and_servo 0 = Some sample_servo_port ∧
   ccr sample_servo_port = Some (3%nat, CCR2) ∧
   16 ≤ ccr_bits ∧ 0 ≤ 1500 < 2 ^ 16) ∧
  (∃ sd, pwmDisableMotors brushed_and_servo = Done tt sd ∧
         pwmWriteMotor 0 1500 sd = Done tt sd ∧
         motor_reading sd 0 = motor_reading brushed_and_servo 0) ∧
  (∃ se s', (pwmDisableMotors;; pwmEnableMotors) brushed_and_servo
              = Done tt se ∧
            pwmWriteMotor 0 1500 se = Done tt s' ∧
            motor_reading s' 0
              = Some (to_timCCR (pulse_of Ptr_pwmWriteBrushed
                                   (period sample_brushed_port) 1500))) ∧
  (∀ gate, ∃ s',
     pwmWriteServo 0 1500 (with_enabled gate brushed_and_servo)
       = Done tt s' ∧
     servo_reading s' 0 = Some 1500 ∧
     s' = with_enabled gate (stored (3%nat, CCR2) 1500 brushed_and_servo)).
Proof.
  assert (Hi : (0 < MAX_MOTORS)%nat) by (cbn; lia).
  assert (Hmp : motor_port brushed_and_servo 0 = Some sample_brushed_port)
    by by vm_compute.
  assert (Hmr : ccr sample_brushed_port = Some (1%nat, CCR1)) by done.
  assert (Hf : pwmWritePtr sample_brushed_port = Some Ptr_pwmWriteBrushed)
    by done.
  assert (Hj : (0 < MAX_SERVOS)%nat) by (cbn; lia).
  assert (Hsp : servo_port brushed_and_servo 0 = Some sample_servo_port)
    by by vm_compute.
  assert (Hsr : ccr sample_servo_port = Some (3%nat, CCR2)) by done.
  assert (Hw : 16 ≤ ccr_bits) by (cbn; lia).
  assert (Hv : 0 ≤ 1500 < 2 ^ 16) by lia.
  split; [done|].
  exact (motor_gate_frame brushed_and_servo 0 0
           sample_brushed_port (1%nat, CCR1) Ptr_pwmWriteBrushed
           sample_servo_port (3%nat, CCR2) 1500
           Hi Hmp Hmr Hf Hj Hsp Hsr Hw Hv).
Defined.





End OnSampleBoard.

(** ** The further properties on the sample board *)

Section ExtensionsOnSampleBoard.
#[local] Existing Instance sample_board.
Arguments sample_hw t%_nat ch.

Lemma pwmCompleteOneshotMotorUpdate_forced_timers_witness :
  motors_configured oneshot_interleaved 3 ∧
  ∃ s' forced,
    pwmCompleteOneshotMotorUpdate 3 oneshot_interleaved = Done tt s' ∧
    new_calls oneshot_interleaved s'
    = map Call_timerForceOverflow forced
      ++ map (λ r, Store_ccr r 0) (motor_ccrs oneshot_interleaved 0 3) ∧
    (∀ i t, (i < 3)%nat → motor_tim oneshot_interleaved i = Some t →
       (1 ≤ overflow_count t (new_calls oneshot_interleaved s'))%nat) ∧
    (∀ t, t ∈ forced →
       ∃ i, (i < 3)%nat ∧ motor_tim oneshot_interleaved i = t) ∧
    (length forced ≤ 3)%nat ∧
    (∀ k a b, forced !! k = Some a → forced !! S k = Some b → a ≠ b).
Proof.
  assert (Hcfg : motors_configured oneshot_interleaved 3)
    by by apply motors_configured_check_sound.
  split; [done|].
  exact (pwmCompleteOneshotMotorUpdate_forced_timers 3 oneshot_interleaved Hcfg).
Defined.

Lemma pwmOutConfig_hardware_calls_witness :
  (timerFindTimerHandle (hw_tim (sample_hw 1 TIM_CHANNEL_1)) = Some 1%nat ∧
   (allocatedOutputPortCount pwm_init < length (pwmOutputPorts pwm_init))%nat) ∧
  ∃ s' port,
    pwmOutConfig (sample_hw 1 TIM_CHANNEL_1) 8 65535 0 pwm_init
    = Done (Some (allocatedOutputPortCount pwm_init)) s' ∧
    new_calls pwm_init s'
    = pwmOutConfig_calls (sample_hw 1 TIM_CHANNEL_1) 1%nat 8 65535 0 ∧
    ccr_regs s' = ccr_regs pwm_init ∧
    motors s' = motors pwm_init ∧ servos s' = servos pwm_init ∧
    pwmOutputPorts s' !! allocatedOutputPortCount pwm_init = Some port ∧
    tim port = Some (hw_tim (sample_hw 1 TIM_CHANNEL_1)) ∧
    period port = 65535 ∧
    (∀ reg, channel_ccr (hw_channel (sample_hw 1 TIM_CHANNEL_1)) = Some reg →
            ccr port = Some (hw_tim (sample_hw 1 TIM_CHANNEL_1), reg)) ∧
    (∀ k, k ≠ allocatedOutputPortCount pwm_init →
          pwmOutputPorts s' !! k = pwmOutputPorts pwm_init !! k).
Proof.
  assert (Hh : timerFindTimerHandle (hw_tim (sample_hw 1 TIM_CHANNEL_1))
               = Some 1%nat) by by vm_compute.
  assert (Hfree : (allocatedOutputPortCount pwm_init
                   < length (pwmOutputPorts pwm_init))%nat)
    by (vm_compute; lia).
  split; [done|].
  exact (pwmOutConfig_hardware_calls (sample_hw 1 TIM_CHANNEL_1) 8 65535 0
           pwm_init 1%nat Hh Hfree).
Defined.

Lemma standard_motor_configure_then_write_witness :
  (timerFindTimerHandle (hw_tim (sample_hw 2 TIM_CHANNEL_3)) = Some 2%nat ∧
   channel_ccr (hw_channel (sample_hw 2 TIM_CHANNEL_3)) = Some CCR3 ∧
   pwmOutputPorts brushed_and_servo
     !! allocatedOutputPortCount brushed_and_servo = Some port_zero ∧
   16 ≤ ccr_bits ∧
   (1 < length (motors brushed_and_servo))%nat ∧ (1 < MAX_MOTORS)%nat ∧
   pwmMotorsEnabled brushed_and_servo = true ∧ 0 ≤ 1500 < 2 ^ 16) ∧
  (∃ s', (pwmOneshotMotorConfig (sample_hw 2 TIM_CHANNEL_3) 1;;
          pwmWriteMotor 1 1500) brushed_and_servo = Done tt s' ∧
         motor_reading s' 1 = Some 1500 ∧
         ccr_regs s' !! (hw_tim (sample_hw 2 TIM_CHANNEL_3), CCR3)
         = Some 1500) ∧
  (∀ rate idle, rate ≠ 0 →
     ∃ s', (pwmBrushlessMotorConfig (sample_hw 2 TIM_CHANNEL_3) 1 rate idle;;
            pwmWriteMotor 1 1500) brushed_and_servo = Done tt s' ∧
           motor_reading s' 1 = Some 1500 ∧
           ccr_regs s' !! (hw_tim (sample_hw 2 TIM_CHANNEL_3), CCR3)
           = Some 1500).
Proof.
  assert (Hh : timerFindTimerHandle (hw_tim (sample_hw 2 TIM_CHANNEL_3))
               = Some 2%nat) by by vm_compute.
  assert (Hch : channel_ccr (hw_channel (sample_hw 2 TIM_CHANNEL_3))
                = Some CCR3) by done.
  assert (Hslot : pwmOutputPorts brushed_and_servo
                    !! allocatedOutputPortCount brushed_and_servo
                  = Some port_zero) by by vm_compute.
  assert (Hw : 16 ≤ ccr_bits) by (cbn; lia).
  assert (Ht : (1 < length (motors brushed_and_servo))%nat)
    by (vm_compute; lia).
  assert (Hi : (1 < MAX_MOTORS)%nat) by (cbn; lia).
  assert (Hen : pwmMotorsEnabled brushed_and_servo = true) by by vm_compute.
  assert (Hv : 0 ≤ 1500 < 2 ^ 16) by lia.
  split; [done|].
  exact (standard_motor_configure_then_write (sample_hw 2 TIM_CHANNEL_3)
           2%nat CCR3 brushed_and_servo port_zero 1 Hh Hch Hslot Hw
           1500 Ht Hi Hen Hv).
Defined.

Lemma brushed_motor_configure_then_write_witness :
  (timerFindTimerHandle (hw_tim (sample_hw 2 TIM_CHANNEL_3)) = Some 2%nat ∧
   channel_ccr (hw_channel (sample_hw 2 TIM_CHANNEL_3)) = Some CCR3 ∧
   pwmOutputPorts brushed_and_servo
     !! allocatedOutputPortCount brushed_and_servo = Some port_zero ∧
   16 ≤ ccr_bits ∧
   (1 < length (motors brushed_and_servo))%nat ∧ (1 < MAX_MOTORS)%nat ∧
   pwmMotorsEnabled brushed_and_servo = true ∧
   16000 ≠ 0 ∧ 1000 ≤ 1500 ≤ 2000) ∧
  ∃ s' ticks,
    ticks = to_uint16 (to_uint32 (int_mul PWM_BRUSHED_TIMER_MHZ 1000000)
                       / 16000) ∧
    (0 ≤ PWM_BRUSHED_TIMER_MHZ * 1000000 < 2 ^ 31 → 0 < 16000 →
     PWM_BRUSHED_TIMER_MHZ * 1000000 / 16000 < 2 ^ 16 →
     ticks = PWM_BRUSHED_TIMER_MHZ * 1000000 / 16000) ∧
    (pwmBrushedMotorConfig (sample_hw 2 TIM_CHANNEL_3) 1 16000 0;;
     pwmWriteMotor 1 1500) brushed_and_servo = Done tt s' ∧
    motor_reading s' 1 = Some ((1500 - 1000) * ticks ÷ 1000) ∧
    0 ≤ (1500 - 1000) * ticks ÷ 1000 ≤ ticks ∧
    (1000 - 1000) * ticks ÷ 1000 = 0 ∧
    (2000 - 1000) * ticks ÷ 1000 = ticks.
Proof.
  assert (Hh : timerFindTimerHandle (hw_tim (sample_hw 2 TIM_CHANNEL_3))
               = Some 2%nat) by by vm_compute.
  assert (Hch : channel_ccr (hw_channel (sample_hw 2 TIM_CHANNEL_3))
                = Some CCR3) by done.
  assert (Hslot : pwmOutputPorts brushed_and_servo
                    !! allocatedOutputPortCount brushed_and_servo
                  = Some port_zero) by by vm_compute.
  assert (Hw : 16 ≤ ccr_bits) by (cbn; lia).
  assert (Ht : (1 < length (motors brushed_and_servo))%nat)
    by (vm_compute; lia).
  assert (Hi : (1 < MAX_MOTORS)%nat) by (cbn; lia).
  assert (Hen : pwmMotorsEnabled brushed_and_servo = true) by by vm_compute.
  assert (Hrate : 16000 ≠ 0) by lia.
  assert (Hv : 1000 ≤ 1500 ≤ 2000) by lia.
  split; [done|].
  exact (brushed_motor_configure_then_write (sample_hw 2 TIM_CHANNEL_3)
           2%nat CCR3 brushed_and_servo port_zero 1 Hh Hch Hslot Hw
           16000 0 1500 Ht Hi Hen Hrate Hv).
Defined.

Lemma servo_configure_then_write_witness :
  (timerFindTimerHandle (hw_tim (sample_hw 2 TIM_CHANNEL_3)) = Some 2%nat ∧
   channel_ccr (hw_channel (sample_hw 2 TIM_CHANNEL_3)) = Some CCR3 ∧
   pwmOutputPorts brushed_and_servo
     !! allocatedOutputPortCount brushed_and_servo = Some port_zero ∧
   16 ≤ ccr_bits ∧
   (1 < length (servos brushed_and_servo))%nat ∧ (1 < MAX_SERVOS)%nat ∧
   50 ≠ 0 ∧ 0 ≤ 1500 < 2 ^ 16) ∧
  ∃ s1 port,
    pwmServoConfig (sample_hw 2 TIM_CHANNEL_3) 1 50 1500 brushed_and_servo
    = Done tt s1 ∧
    servo_port s1 1 = Some port ∧
    period port = to_uint16 (int_div 1000000 50) ∧
    ∀ gate, ∃ s2,
      pwmWriteServo 1 1500 (with_enabled gate s1) = Done tt s2 ∧
      servo_reading s2 1 = Some 1500 ∧
      ccr_regs s2 !! (hw_tim (sample_hw 2 TIM_CHANNEL_3), CCR3) = Some 1500.
Proof.
  assert (Hh : timerFindTimerHandle (hw_tim (sample_hw 2 TIM_CHANNEL_3))
               = Some 2%nat) by by vm_compute.
  assert (Hch : channel_ccr (hw_channel (sample_hw 2 TIM_CHANNEL_3))
                = Some CCR3) by done.
  assert (Hslot : pwmOutputPorts brushed_and_servo
                    !! allocatedOutputPortCount brushed_and_servo
                  = Some port_zero) by by vm_compute.
  assert (Hw : 16 ≤ ccr_bits) by (cbn; lia).
  assert (Ht : (1 < length (servos brushed_and_servo))%nat)
    by (vm_compute; lia).
  assert (Hj : (1 < MAX_SERVOS)%nat) by (cbn; lia).
  assert (Hrate : 50 ≠ 0) by lia.
  assert (Hv : 0 ≤ 1500 < 2 ^ 16) by lia.
  split; [done|].
  exact (servo_configure_then_write (sample_hw 2 TIM_CHANNEL_3)
           2%nat CCR3 brushed_and_servo port_zero 1 Hh Hch Hslot Hw
           50 1500 1500 Ht Hj Hrate Hv).
Defined.

Lemma half_configured_motor_faults_witness :
  (op_motor_index (Op_pwmOneshotMotorConfig (sample_hw 20 TIM_CHANNEL_1) 0)
   = Some 0%nat ∧
   op_hardware (Op_pwmOneshotMotorConfig (sample_hw 20 TIM_CHANNEL_1) 0)
   = Some (sample_hw 20 TIM_CHANNEL_1) ∧
   (timerFindTimerHandle (hw_tim (sample_hw 20 TIM_CHANNEL_1)) = None ∨
    channel_ccr (hw_channel (sample_hw 20 TIM_CHANNEL_1)) = None) ∧
   pwmOutputPorts pwm_init !! allocatedOutputPortCount pwm_init
   = Some port_zero ∧
   ccr port_zero = None ∧
   (0 < MAX_MOTORS)%nat ∧ pwmMotorsEnabled pwm_init = true ∧
   run_op (Op_pwmOneshotMotorConfig (sample_hw 20 TIM_CHANNEL_1) 0) pwm_init
   = Done tt oneshot_unresolved) ∧
  motor_ccr oneshot_unresolved 0 = None ∧
  (∀ v, pwmWriteMotor 0 v oneshot_unresolved = Fault) ∧
  (∀ count, (0 < count)%nat →
     pwmShutdownPulsesForAllMotors count oneshot_unresolved = Fault ∧
     pwmCompleteOneshotMotorUpdate count oneshot_unresolved = Fault) ∧
  (∀ v, pwmWriteMotor 0 v (with_enabled false oneshot_unresolved)
        = Done tt (with_enabled false oneshot_unresolved)).
Proof.
  assert (Hidx : op_motor_index
            (Op_pwmOneshotMotorConfig (sample_hw 20 TIM_CHANNEL_1) 0)
          = Some 0%nat) by done.
  assert (Hhw : op_hardware
            (Op_pwmOneshotMotorConfig (sample_hw 20 TIM_CHANNEL_1) 0)
          = Some (sample_hw 20 TIM_CHANNEL_1)) by done.
  assert (Hbad : timerFindTimerHandle (hw_tim (sample_hw 20 TIM_CHANNEL_1))
                 = None ∨
                 channel_ccr (hw_channel (sample_hw 20 TIM_CHANNEL_1)) = None)
    by (left; by vm_compute).
  assert (Hslot : pwmOutputPorts pwm_init !! allocatedOutputPortCount pwm_init
                  = Some port_zero) by by vm_compute.
  assert (Hfresh : ccr port_zero = None) by done.
  assert (Hi : (0 < MAX_MOTORS)%nat) by (cbn; lia).
  assert (Hen : pwmMotorsEnabled pwm_init = true) by done.
  assert (Hrun : run_op
            (Op_pwmOneshotMotorConfig (sample_hw 20 TIM_CHANNEL_1) 0) pwm_init
          = Done tt oneshot_unresolved) by by vm_compute.
  split; [done|].
  exact (half_configured_motor_faults _ _ 0 pwm_init oneshot_unresolved
           port_zero Hidx Hhw Hbad Hslot Hfresh Hi Hen Hrun).
Defined.


Lemma cursor_counts_configuration_calls_witness :
  ((allocatedOutputPortCount pwm_init < 256)%nat ∧
   run_ops sample_startup pwm_init = Done tt brushed_and_servo) ∧
  allocatedOutputPortCount brushed_and_servo
  = ((allocatedOutputPortCount pwm_init + config_count sample_startup)
     mod 256)%nat.
Proof.
  assert (Hlt : (allocatedOutputPortCount pwm_init < 256)%nat) by (cbn; lia).
  assert (Hrun : run_ops sample_startup pwm_init = Done tt brushed_and_servo)
    by by vm_compute.
  split; [done|].
  exact (cursor_counts_configuration_calls sample_startup pwm_init
           brushed_and_servo Hlt Hrun).
Defined.


Lemma pwmWriteMotor_last_write_wins_witness :
  ((0 < MAX_MOTORS)%nat ∧
   motor_port brushed_and_servo 0 = Some sample_brushed_port ∧
   ccr sample_brushed_port = Some (1%nat, CCR1) ∧
   pwmWritePtr sample_brushed_port = Some Ptr_pwmWriteBrushed ∧
   pwmMotorsEnabled brushed_and_servo = true) ∧
  ∃ s',
    (pwmWriteMotor 0 1200;; pwmWriteMotor 0 1800) brushed_and_servo
    = Done tt s' ∧
    motor_reading s' 0
    = Some (to_timCCR (pulse_of Ptr_pwmWriteBrushed
                         (period sample_brushed_port) 1800)) ∧
    new_calls brushed_and_servo s'
    = [Store_ccr (1%nat, CCR1)
         (to_timCCR (pulse_of Ptr_pwmWriteBrushed
                       (period sample_brushed_port) 1200));
       Store_ccr (1%nat, CCR1)
         (to_timCCR (pulse_of Ptr_pwmWriteBrushed
                       (period sample_brushed_port) 1800))] ∧
    (∀ r', r' ≠ (1%nat, CCR1) →
           ccr_regs s' !! r' = ccr_regs brushed_and_servo !! r') ∧
    (Ptr_pwmWriteBrushed = Ptr_pwmWriteStandard → 16 ≤ ccr_bits →
     0 ≤ 1800 < 2 ^ 16 → motor_reading s' 0 = Some 1800).
Proof.
  assert (Hi : (0 < MAX_MOTORS)%nat) by (cbn; lia).
  assert (Hp : motor_port brushed_and_servo 0 = Some sample_brushed_port)
    by by vm_compute.
  assert (Hr : ccr sample_brushed_port = Some (1%nat, CCR1)) by done.
  assert (Hf : pwmWritePtr sample_brushed_port = Some Ptr_pwmWriteBrushed)
    by done.
  assert (Hen : pwmMotorsEnabled brushed_and_servo = true) by by vm_compute.
  split; [done|].
  exact (pwmWriteMotor_last_write_wins brushed_and_servo 0
           sample_brushed_port (1%nat, CCR1) Ptr_pwmWriteBrushed 1200 1800
           Hi Hp Hr Hf Hen).
Defined.


Lemma pwmWriteMotor_brushed_above_2000_witness :
  ((0 < MAX_MOTORS)%nat ∧
   motor_port brushed_and_servo 0 = Some sample_brushed_port ∧
   ccr sample_brushed_port = Some (1%nat, CCR1) ∧
   pwmWritePtr sample_brushed_port = Some Ptr_pwmWriteBrushed ∧
   pwmMotorsEnabled brushed_and_servo = true ∧
   0 ≤ period sample_brushed_port < 2 ^ 16 ∧ 22 ≤ ccr_bits ∧
   2000 < 3000 ≤ 33768) ∧
  motor_write_reading brushed_and_servo 0 3000
  = Some ((3000 - 1000) * period sample_brushed_port ÷ 1000) ∧
  period sample_brushed_port
  ≤ (3000 - 1000) * period sample_brushed_port ÷ 1000.
Proof.
  assert (Hi : (0 < MAX_MOTORS)%nat) by (cbn; lia).
  assert (Hp : motor_port brushed_and_servo 0 = Some sample_brushed_port)
    by by vm_compute.
  assert (Hr : ccr sample_brushed_port = Some (1%nat, CCR1)) by done.
  assert (Hf : pwmWritePtr sample_brushed_port = Some Ptr_pwmWriteBrushed)
    by done.
  assert (Hen : pwmMotorsEnabled brushed_and_servo = true) by by vm_compute.
  assert (HP : 0 ≤ period sample_brushed_port < 2 ^ 16) by (cbn; lia).
  assert (Hw : 22 ≤ ccr_bits) by (cbn; lia).
  assert (Hv : 2000 < 3000 ≤ 33768) by lia.
  split; [done|].
  exact (pwmWriteMotor_brushed_above_2000 brushed_and_servo 0
           sample_brushed_port (1%nat, CCR1) 3000 Hi Hp Hr Hf Hen HP Hw Hv).
Defined.

End ExtensionsOnSampleBoard.
